(** * MobileIpcTransport: IPC envelopes tunnelled through the mobile RPC channel

    A shallow embedding of the class [MobileIpcTransport] (the second module of
    tools/perf-tools/reporter/Reporter.ts) and the properties its
    specification states about it.

    The class keeps one piece of mutable state, the array [_listeners]. Its
    methods call into three collaborators whose code lives in other modules:
    the marshaling codec [RpcMarshaling], the protocol codec and channel
    [MobileRpcProtocol], and the listeners, which are closures of the
    application. Each collaborator is an interface here (a type class); the
    methods are written once, over any implementation of them. *)

From Stdlib Require Import Ascii String NArith ZArith Bool Lia List.
Import ListNotations.

Set Implicit Arguments.
Set Warnings "-register-all".

(** ** Values *)

(** What a TypeScript [any] can hold at run time (numbers restricted to the
    integers, which is all an enum tag or a status code takes). *)
Inductive JsValue : Type :=
| JsUndefined
| JsNull
| JsBoolean (b : bool)
| JsNumber (n : Z)
| JsString (s : string)
| JsArray (elements : list JsValue)
| JsObject (properties : list (string * JsValue)).

(** What a [throw] carries. [TypeError] is raised by the language itself
    (a property read on [undefined] or [null]); [SerializationError] is what
    the marshaling and protocol codecs raise. *)
Inductive Error : Type :=
| TypeError (message : string)
| SerializationError (message : string).

(** How a synchronous call completes, and how a promise settles. *)
Inductive Result (A : Type) : Type :=
| Returns (a : A)
| Throws (e : Error).
Arguments Returns {A} a.
Arguments Throws {A} e.

(** A settled promise: fulfilled with a value ([Returns]) or rejected with
    an error ([Throws]). *)
Definition Promise := Result.

(** [value[0]]: reading property 0 throws on [undefined] and [null], indexes
    arrays and strings, looks the key up in an object and is [undefined]
    everywhere else. *)
Definition lookupProperty (key : string) (properties : list (string * JsValue)) : JsValue :=
  match find (fun p => String.eqb (fst p) key) properties with
  | Some p => snd p
  | None => JsUndefined
  end.

Definition index0 (value : JsValue) : Result JsValue :=
  match value with
  | JsUndefined => Throws (TypeError "Cannot read properties of undefined (reading '0')")
  | JsNull => Throws (TypeError "Cannot read properties of null (reading '0')")
  | JsArray elements => Returns (nth 0 elements JsUndefined)
  | JsString s =>
      Returns (match s with
               | EmptyString => JsUndefined
               | String c _ => JsString (String c EmptyString)
               end)
  | JsObject properties => Returns (lookupProperty "0" properties)
  | JsBoolean _ | JsNumber _ => Returns JsUndefined
  end.

(** ** Wire messages *)

(** Modelled from the spec: the enum [IpcWebSocketMessageType] is declared in
    ipc/IpcWebSocket, which is not among the sources. The spec lists its
    members as Send, Invoke, Push, Response; a numeric TypeScript enum numbers
    its members from 0, so the members are four distinct numbers, and nothing
    below uses more than that. *)
Module IpcWebSocketMessageType.
Definition Send : Z := 0.
Definition Invoke : Z := 1.
Definition Push : Z := 2.
Definition Response : Z := 3.
Definition members : list Z := [Send; Invoke; Push; Response].
End IpcWebSocketMessageType.

(** Modelled from the spec: the interface [IpcWebSocketMessage] is declared
    in ipc/IpcWebSocket too. The envelope has a channel, a type and a
    payload; at run time the type tag is a number, which a caller that goes
    around the type checker can set to anything. *)
Record IpcWebSocketMessage : Type := {
  channel : string;
  type : Z;
  payload : JsValue;
}.

(** The envelope as the object it is at run time: what is marshaled, and
    what a listener is handed. *)
Definition asValue (message : IpcWebSocketMessage) : JsValue :=
  JsObject [ ("channel"%string, JsString (channel message));
             ("type"%string, JsNumber (type message));
             ("payload"%string, payload message) ].

(** [const IPC = "__ipc__"] *)
Definition IPC : string := "__ipc__".

(** The static members of a subclass of [RpcInterface]. The client that
    [RpcManager.getClientForInterface] returns stands for the interface it
    was made for. *)
Module RpcInterface.
Record t : Type := {
  interfaceName : string;
  interfaceVersion : string;
}.
End RpcInterface.
Abbreviation RpcInterface := RpcInterface.t.

(** [class IpcInterface extends RpcInterface] *)
Definition IpcInterface : RpcInterface :=
  {| RpcInterface.interfaceName := IPC; RpcInterface.interfaceVersion := "0.0.0" |}.

(** [new MobileRpcRequest(client, operation, parameters)] *)
Record MobileRpcRequest : Type := {
  requestClient : RpcInterface;
  requestOperation : string;
  requestParameters : list JsValue;
}.

(** ** The collaborators *)

(** [RpcMarshaling.serialize] is asynchronous, [RpcMarshaling.deserialize]
    is not and returns [any]. The protocol both take as first argument is
    the one [_protocol] of the transport, fixed at construction. *)
Class RpcMarshaling : Type := {
  WireValue : Type;
  serialize : JsValue -> Promise WireValue;
  deserialize : WireValue -> Result JsValue;
}.

Section Messages.
Context {marshaling : RpcMarshaling}.

(** Modelled from the spec: [SerializedRpcRequest] is declared in
    core/RpcProtocol; of its fields the spec names the operation, with the
    interface and the method it targets, and the marshaled argument list. *)
Record SerializedRpcOperation : Type := {
  interfaceDefinition : string;
  operationName : string;
}.

Record SerializedRpcRequest : Type := {
  operation : SerializedRpcOperation;
  parameters : WireValue;
}.

(** The fields of [RpcRequestFulfillment] are those of the object literal
    in [sendToFrontend]. *)
Record RpcRequestFulfillment : Type := {
  result : WireValue;
  rawResult : JsValue;
  interfaceName : string;
  id : string;
  status : Z;
}.
End Messages.

(** Modelled from the spec: the serialized form of a request (3) names the
    interface of the client the request was made for and its method, and
    carries the argument list marshaled as one array. *)
Definition serializeRequest {marshaling : RpcMarshaling} (request : MobileRpcRequest)
  : Promise SerializedRpcRequest :=
  match serialize (JsArray (requestParameters request)) with
  | Returns wire =>
      Returns {| operation := {| interfaceDefinition :=
                                   RpcInterface.interfaceName (requestClient request);
                                 operationName := requestOperation request |};
                 parameters := wire |}
  | Throws e => Throws e
  end.

(** [MobileRpcProtocol]: the two static encoders the transport calls
    ([encodeRequest] is asynchronous, [encodeResponse] is not). What
    [_protocol.sendToBackend] and [_protocol.sendToFrontend] do with the
    encoded message is recorded as an event, below.

    Modelled from the spec: [decode] is the receiving end of the protocol
    codec (4.3), which tells requests from responses. *)
Class MobileRpcProtocol {marshaling : RpcMarshaling} : Type := {
  Encoded : Type;
  encodeRequest : MobileRpcRequest -> Promise Encoded;
  encodeResponse : RpcRequestFulfillment -> Encoded;
  decode : Encoded -> option (SerializedRpcRequest + RpcRequestFulfillment);
}.

(** A listener is a closure [(message) => void] of the application. What
    a call of it comes to, as far as the transport and the other listeners
    can tell: the handlers it passes to [listen] while it runs, in call
    order; the state it leaves the message in, the message being one
    object that every listener is handed and any of them may write to; and
    whether it returns or throws. What it registered and what it wrote
    stay when it throws. *)
Record Reaction (L : Type) : Type := {
  registers : list L;
  leaves : JsValue;
  ends : Result unit;
}.
Arguments registers {L} r.
Arguments leaves {L} r.
Arguments ends {L} r.

(** [reacts listener message] is what [listener] does when it is called
    with the message in the state [message]. *)
Class ListenerCode : Type := {
  Listener : Type;
  reacts : Listener -> JsValue -> Reaction Listener;
}.

(** The handlers a listener registers while it handles a message. *)
Definition reenters {code : ListenerCode} (listener : Listener) (message : JsValue)
  : list Listener :=
  registers (reacts listener message).

(** ** The transport *)

Section Transport.
Context {marshaling : RpcMarshaling} {protocol : MobileRpcProtocol} {code : ListenerCode}.

(** The fields that [_protocol] aside make up an instance. *)
Record MobileIpcTransport : Type := {
  _listeners : list Listener;
  _client : RpcInterface;
}.

(** [new MobileIpcTransport(protocol)] *)
Definition constructor : MobileIpcTransport :=
  {| _listeners := []; _client := IpcInterface |}.

(** What a method does to the world outside the instance, in order: the
    asynchronous operations it starts ([MobileRpcProtocol.encodeRequest],
    [RpcMarshaling.serialize]), what it hands to the channel, the requests
    it disposes, the listeners it calls, each with the state the message
    is in as the call is made, and the rejections it leaves unhandled. *)
Inductive Event : Type :=
| EncodeRequest (request : MobileRpcRequest)
| Serialize (value : JsValue)
| SendToBackend (encoded : Encoded)
| SendToFrontend (encoded : Encoded)
| Dispose (request : MobileRpcRequest)
| Call (listener : Listener) (message : JsValue)
| UnhandledRejection (e : Error).

(** A method run on an instance: how it completed ([None] when the loop of
    [broadcast] was still running as the fuel ran out), the instance
    afterwards, and the events it caused. *)
Record Outcome (A : Type) : Type := {
  completion : option (Result A);
  after : MobileIpcTransport;
  events : list Event;
}.

Definition M (A : Type) : Type := MobileIpcTransport -> Outcome A.

Definition ret {A} (a : A) : M A :=
  fun this => {| completion := Some (Returns a); after := this; events := [] |}.

Definition bind {A B} (m : M A) (k : A -> M B) : M B :=
  fun this =>
    let o := m this in
    match completion o with
    | Some (Returns a) =>
        let o' := k a (after o) in
        {| completion := completion o'; after := after o'; events := events o ++ events o' |}
    | Some (Throws e) =>
        {| completion := Some (Throws e); after := after o; events := events o |}
    | None =>
        {| completion := None; after := after o; events := events o |}
    end.

Definition emit (e : Event) : M unit :=
  fun this => {| completion := Some (Returns tt); after := this; events := [e] |}.

Definition this_client : M RpcInterface :=
  fun this => {| completion := Some (Returns (_client this)); after := this; events := [] |}.

(** A call that may throw; also [await] on a settled promise, which
    resumes with the value or throws the rejection. *)
Definition attempt {A} (r : Result A) : M A :=
  fun this => {| completion := Some r; after := this; events := [] |}.

Definition await {A} (p : Promise A) : M A := attempt p.

Definition spin {A} : M A :=
  fun this => {| completion := None; after := this; events := [] |}.
End Transport.

Declare Scope transport_scope.
Delimit Scope transport_scope with transport.
Notation "x <- m ;; k" := (bind m (fun x => k))
  (at level 61, m at next level, right associativity) : transport_scope.
Notation "m ;; k" := (bind m (fun _ => k))
  (at level 61, right associativity) : transport_scope.
Open Scope transport_scope.

Section Methods.
Context {marshaling : RpcMarshaling} {protocol : MobileRpcProtocol} {code : ListenerCode}.

(** The body of an [async] method runs to its end, in the turns of the
    event loop its [await]s take; a [throw] inside it rejects the promise
    the method returns and does not reach the caller. The outcome is that of
    the body once the promise has settled: nothing the body awaits here
    depends on what other calls do to the instance meanwhile. *)
Definition async {A} (body : M A) : M (Promise A) :=
  fun this =>
    let o := body this in
    match completion o with
    | Some r => {| completion := Some (Returns r); after := after o; events := events o |}
    | None => {| completion := None; after := after o; events := events o |}
    end.

(** A promise nobody awaits or catches: the caller goes on and completes
    normally whatever becomes of the promise, and a rejection ends as an
    unhandled one. *)
Definition floating {A} (call : M (Promise A)) : M unit :=
  p <- call ;;
  match p with
  | Returns _ => ret tt
  | Throws e => emit (UnhandledRejection e)
  end.

(** [listen(handler)]: [this._listeners.push(handler)] *)
Definition listen (handler : Listener) : M unit :=
  fun this =>
    {| completion := Some (Returns tt);
       after := {| _listeners := _listeners this ++ [handler]; _client := _client this |};
       events := [] |}.

Fixpoint listenAll (handlers : list Listener) : M unit :=
  match handlers with
  | [] => ret tt
  | handler :: rest => listen handler ;; listenAll rest
  end.

(** [listener(message)]: the call itself, then what the body of the
    listener does: it registers handlers, and it returns or throws. The
    result is the state it leaves the message in. *)
Definition invoke (listener : Listener) (message : JsValue) : M JsValue :=
  let reaction := reacts listener message in
  emit (Call listener message) ;;
  listenAll (registers reaction) ;;
  attempt (ends reaction) ;;
  ret (leaves reaction).

(** [for (const listener of this._listeners) listener(message);]

    The iterator of an array reads the array anew at every step: it stops
    when its index has reached the length the array has then. Every
    listener is handed the same object, so each is called with the message
    as the listeners before it left it; nothing catches what a listener
    throws, which ends the loop. *)
Fixpoint broadcastFrom (fuel index : nat) (message : JsValue) : M unit :=
  fun this =>
    match nth_error (_listeners this) index with
    | None => ret tt this
    | Some listener =>
        match fuel with
        | O => spin this
        | S fuel' =>
            (message' <- invoke listener message ;;
             broadcastFrom fuel' (S index) message') this
        end
    end.

Definition broadcast (fuel : nat) (message : JsValue) : M unit :=
  broadcastFrom fuel 0 message.

(** [consumeRequest(request)] *)
Definition consumeRequest (fuel : nat) (request : SerializedRpcRequest) : M bool :=
  if negb (String.eqb (interfaceDefinition (operation request)) IPC) then
    ret false
  else
    values <- attempt (deserialize (parameters request)) ;;
    message <- attempt (index0 values) ;;
    broadcast fuel message ;;
    ret true.

(** [consumeResponse(response)] *)
Definition consumeResponse (fuel : nat) (response : RpcRequestFulfillment) : M bool :=
  if negb (String.eqb (interfaceName response) IPC) then
    ret false
  else
    message <- attempt (deserialize (result response)) ;;
    broadcast fuel message ;;
    ret true.

(** [sendToBackend(message)] *)
Definition sendToBackend (message : IpcWebSocketMessage) : M (Promise unit) :=
  async (
    client <- this_client ;;
    let request :=
      {| requestClient := client;
         requestOperation := "send";
         requestParameters := [asValue message] |} in
    emit (EncodeRequest request) ;;
    encoded <- await (encodeRequest request) ;;
    emit (SendToBackend encoded) ;;
    emit (Dispose request)).

(** [sendToFrontend(message)] *)
Definition sendToFrontend (message : IpcWebSocketMessage) : M (Promise unit) :=
  async (
    emit (Serialize (asValue message)) ;;
    result <- await (serialize (asValue message)) ;;
    let fulfillment :=
      {| result := result;
         rawResult := asValue message;
         interfaceName := IPC;
         id := channel message;
         status := 0 |} in
    let encoded := encodeResponse fulfillment in
    emit (SendToFrontend encoded)).

(** [send(message)] *)
Definition send (message : IpcWebSocketMessage) : M unit :=
  if (type message =? IpcWebSocketMessageType.Send)%Z
     || (type message =? IpcWebSocketMessageType.Invoke)%Z then
    floating (sendToBackend message)
  else if (type message =? IpcWebSocketMessageType.Push)%Z
          || (type message =? IpcWebSocketMessageType.Response)%Z then
    floating (sendToFrontend message)
  else
    ret tt.

(** Modelled from the spec: the layer under the transport decodes what
    arrives and routes a request to [consumeRequest], a response to
    [consumeResponse] (4.3). *)
Definition consume (fuel : nat) (inbound : SerializedRpcRequest + RpcRequestFulfillment) : M bool :=
  match inbound with
  | inl request => consumeRequest fuel request
  | inr response => consumeResponse fuel response
  end.
End Methods.

(** ** The vocabulary of the properties *)

Section Vocabulary.
Context {marshaling : RpcMarshaling} {protocol : MobileRpcProtocol} {code : ListenerCode}.

(** A listener that only reads [message]: called with it, it registers
    nothing, leaves the message as it is, and returns. *)
Definition onlyReads (message : JsValue) (listener : Listener) : Prop :=
  reacts listener message = {| registers := []; leaves := message; ends := Returns tt |}.

(** The calls of a run of [broadcast]: who was called, and the state the
    message was in then. [chained message calls] says that the first call
    was made with [message] and each later one with the message as the
    call before it left it. *)
Definition called (call : Listener * JsValue) : Event :=
  Call (fst call) (snd call).

Fixpoint chained (message : JsValue) (calls : list (Listener * JsValue)) : Prop :=
  match calls with
  | [] => True
  | call :: rest =>
      snd call = message /\ chained (leaves (reacts (fst call) (snd call))) rest
  end.

Definition returned (call : Listener * JsValue) : Prop :=
  ends (reacts (fst call) (snd call)) = Returns tt.

Definition threw (e : Error) (call : Listener * JsValue) : Prop :=
  ends (reacts (fst call) (snd call)) = Throws e.

Definition deliveries (message : JsValue) (listeners : list Listener) : list Event :=
  map (fun listener => Call listener message) listeners.

Definition withListeners (this : MobileIpcTransport) (listeners : list Listener)
  : MobileIpcTransport :=
  {| _listeners := listeners; _client := _client this |}.

(** What the transport finds inside an inbound message it takes for its
    own: a request carries the argument list, of which the envelope is
    element 0; a fulfillment carries the envelope itself. *)
Definition unwraps (inbound : SerializedRpcRequest + RpcRequestFulfillment)
    (message : JsValue) : Prop :=
  match inbound with
  | inl request =>
      interfaceDefinition (operation request) = IPC /\
      exists values, deserialize (parameters request) = Returns values /\
                     index0 values = Returns message
  | inr response =>
      interfaceName response = IPC /\
      deserialize (result response) = Returns message
  end.

(** An inbound message with the sentinel whose payload cannot be read. *)
Definition malformed (inbound : SerializedRpcRequest + RpcRequestFulfillment)
    (e : Error) : Prop :=
  match inbound with
  | inl request =>
      interfaceDefinition (operation request) = IPC /\
      (deserialize (parameters request) = Throws e \/
       exists values, deserialize (parameters request) = Returns values /\
                      index0 values = Throws e)
  | inr response =>
      interfaceName response = IPC /\
      deserialize (result response) = Throws e
  end.

(** [later] is [earlier] with listeners appended, if any. *)
Definition extends (earlier later : MobileIpcTransport) : Prop :=
  (exists appended, _listeners later = _listeners earlier ++ appended) /\
  _client later = _client earlier.

Definition appendOnly {A} (m : M A) : Prop :=
  forall this, extends this (after (m this)).

(** The public methods of the class. *)
Inductive Operation : Type :=
| DoSend (message : IpcWebSocketMessage)
| DoListen (handler : Listener)
| DoConsumeRequest (fuel : nat) (request : SerializedRpcRequest)
| DoConsumeResponse (fuel : nat) (response : RpcRequestFulfillment).

Definition perform (op : Operation) (this : MobileIpcTransport) : MobileIpcTransport :=
  match op with
  | DoSend message => after (send message this)
  | DoListen handler => after (listen handler this)
  | DoConsumeRequest fuel request => after (consumeRequest fuel request this)
  | DoConsumeResponse fuel response => after (consumeResponse fuel response this)
  end.

Definition performAll (ops : list Operation) (this : MobileIpcTransport) : MobileIpcTransport :=
  fold_left (fun instance op => perform op instance) ops this.

(** The request [sendToBackend] makes for a message. *)
Definition ipcRequest (this : MobileIpcTransport) (message : IpcWebSocketMessage)
  : MobileRpcRequest :=
  {| requestClient := _client this;
     requestOperation := "send";
     requestParameters := [asValue message] |}.

(** The fulfillment [sendToFrontend] makes for a message marshaled as [wire]. *)
Definition ipcFulfillment (message : IpcWebSocketMessage) (wire : WireValue)
  : RpcRequestFulfillment :=
  {| result := wire;
     rawResult := asValue message;
     interfaceName := IPC;
     id := channel message;
     status := 0 |}.

Definition towardBackend (message : IpcWebSocketMessage) : Prop :=
  type message = IpcWebSocketMessageType.Send \/
  type message = IpcWebSocketMessageType.Invoke.

Definition towardFrontend (message : IpcWebSocketMessage) : Prop :=
  type message = IpcWebSocketMessageType.Push \/
  type message = IpcWebSocketMessageType.Response.

(** The contract of the marshaling codec (4.4): what was marshaled is what
    unmarshaling gives back. *)
Definition lossless : Prop :=
  forall value wire, serialize value = Returns wire -> deserialize wire = Returns value.

(** The same with nothing that cannot be marshaled: every value has a
    wire form, which unmarshals to it. *)
Definition roundTrips : Prop :=
  forall value, exists wire,
    serialize value = Returns wire /\ deserialize wire = Returns value.

(** The contract of the protocol codec (4.3): a request whose arguments
    marshal is encoded, and the far end decodes the encoding to the
    serialized form of the request; it decodes an encoded fulfillment to
    the fulfillment. *)
Definition faithful : Prop :=
  (forall request serialized,
     serializeRequest request = Returns serialized ->
     exists encoded,
       encodeRequest request = Returns encoded /\
       decode encoded = Some (inl serialized)) /\
  (forall fulfillment, decode (encodeResponse fulfillment) = Some (inr fulfillment)).

(** What a call handed to the channel, in either direction, in order. *)
Definition isHandOver (e : Event) : bool :=
  match e with
  | SendToBackend _ | SendToFrontend _ => true
  | _ => false
  end.

Definition handOvers (made : list Event) : list Event :=
  filter isHandOver made.

End Vocabulary.

(** ** Concrete collaborators

    A marshaling codec that keeps the value as it is, a second one that, as
    the contract of 4.4 has it, hands back an array around what it decodes,
    a third one that cannot marshal anything; a protocol codec that
    marshals the argument list of a request and frames nothing; and
    listeners named by numbers, of which listener 7 registers listener 8
    each time it is called, listener 9 throws, listener 5 sets the
    property [seen] of the message it is handed, and the others only
    read. *)

Definition identityMarshaling : RpcMarshaling :=
  {| WireValue := JsValue;
     serialize := fun value => Returns value;
     deserialize := fun wire => Returns wire |}.

Definition arrayMarshaling : RpcMarshaling :=
  {| WireValue := JsValue;
     serialize := fun value => Returns value;
     deserialize := fun wire => Returns (JsArray [wire]) |}.

Definition failingMarshaling : RpcMarshaling :=
  {| WireValue := JsValue;
     serialize := fun _ => Throws (SerializationError "cannot marshal");
     deserialize := fun _ => Throws (SerializationError "cannot unmarshal") |}.

Definition loopbackProtocol (marshaling : RpcMarshaling) : MobileRpcProtocol :=
  {| Encoded := SerializedRpcRequest + RpcRequestFulfillment;
     encodeRequest := fun request =>
       match serializeRequest request with
       | Returns serialized => Returns (inl serialized)
       | Throws e => Throws e
       end;
     encodeResponse := fun fulfillment => inr fulfillment;
     decode := fun encoded => Some encoded |}.

Definition seen (message : JsValue) : JsValue :=
  match message with
  | JsObject properties => JsObject (properties ++ [("seen"%string, JsBoolean true)])
  | other => other
  end.

Definition numberedListeners : ListenerCode :=
  {| Listener := nat;
     reacts := fun listener message =>
       if Nat.eqb listener 7 then
         {| registers := [8]; leaves := message; ends := Returns tt |}
       else if Nat.eqb listener 9 then
         {| registers := []; leaves := message;
            ends := Throws (TypeError "listener 9 failed") |}
       else if Nat.eqb listener 5 then
         {| registers := []; leaves := seen message; ends := Returns tt |}
       else
         {| registers := []; leaves := message; ends := Returns tt |} |}.

(** Listeners each of which registers itself again whenever it is called. *)
Definition selfRegistering : ListenerCode :=
  {| Listener := nat;
     reacts := fun listener message =>
       {| registers := [listener]; leaves := message; ends := Returns tt |} |}.

(** The scenario of 8.6. *)
Definition ping : IpcWebSocketMessage :=
  {| channel := "ui-sync";
     type := IpcWebSocketMessageType.Invoke;
     payload := JsObject [("cmd"%string, JsString "ping")] |}.

Definition pong : IpcWebSocketMessage :=
  {| channel := "ui-sync";
     type := IpcWebSocketMessageType.Response;
     payload := JsObject [("cmd"%string, JsString "pong")] |}.

Section Fixtures.
#[local] Existing Instance identityMarshaling.
#[local] Existing Instance loopbackProtocol.
#[local] Existing Instance numberedListeners.

(** An instance with listeners 1, 2 and 3 registered in that order. *)
Definition threeListeners : @MobileIpcTransport numberedListeners :=
  after (@listenAll identityMarshaling (loopbackProtocol identityMarshaling)
           numberedListeners [1; 2; 3] constructor).

(** [ping] as it arrives at the backend, and [pong] as it arrives at the
    frontend. *)
Definition pingRequest : SerializedRpcRequest :=
  {| operation := {| interfaceDefinition := IPC; operationName := "send" |};
     parameters := JsArray [asValue ping] |}.

Definition pongFulfillment : RpcRequestFulfillment :=
  {| result := asValue pong;
     rawResult := asValue pong;
     interfaceName := IPC;
     id := "ui-sync";
     status := 0 |}.

(** A request of the application, and a request with the sentinel whose
    parameters are not an argument list. *)
Definition readRequest : SerializedRpcRequest :=
  {| operation := {| interfaceDefinition := "IModelReadRpcInterface";
                     operationName := "getModelProps" |};
     parameters := JsArray [JsString "0x1"] |}.

Definition brokenRequest : SerializedRpcRequest :=
  {| operation := {| interfaceDefinition := IPC; operationName := "send" |};
     parameters := JsUndefined |}.

End Fixtures.

(** ** PerfReporter

    The first class of Reporter.ts: entries collected in memory and written
    out as lines of a CSV file. *)

Module PerfReporter.

(** What a template literal makes of a [number] and of an [any] it
    interpolates: the conversion to string of the language. *)
Class Interpolation : Type := {
  Number : Type;
  ofNumber : Number -> string;
  ofAny : JsValue -> string;
}.

(** The line feed, ["\n"]. *)
Definition LF : string := String (Ascii.ascii_of_nat 10) EmptyString.

(** [s.endsWith(suffix)] *)
Definition endsWith (s suffix : string) : bool :=
  (String.length suffix <=? String.length s) &&
  String.eqb
    (substring (String.length s - String.length suffix) (String.length suffix) s)
    suffix.

(** The file system as [exportCSV] uses it: the regular files by path,
    the contents of a file a string. *)
Definition FileSystem : Type := string -> option string.

(** What [fs.appendFileSync] throws. *)
Inductive FsError : Type :=
| ENOENT
| EISDIR.

(** Where there is no regular file, there may be no way to make one: the
    directory the path lies in is missing ([ENOENT]), or the path is that
    of a directory ([EISDIR]). [obstacle path] tells which, if any. *)
Class Volume : Type := {
  obstacle : string -> option FsError;
}.

(** [fs.existsSync(path)]: there is a file at the path, or a directory. *)
Definition existsSync {volume : Volume} (fs : FileSystem) (path : string) : bool :=
  match fs path with
  | Some _ => true
  | None =>
      match obstacle path with
      | Some EISDIR => true
      | _ => false
      end
  end.

(** What a call that writes comes to: what it threw, if it did, and the
    files afterwards. *)
Record Written : Type := {
  raised : option FsError;
  disk : FileSystem;
}.

(** [fs.appendFileSync(path, data)]: the data goes to the end of the file,
    which is created when there is none; where none can be made the call
    throws and writes nothing. *)
Definition appendFileSync {volume : Volume} (path data : string) (fs : FileSystem)
  : Written :=
  match fs path with
  | Some contents =>
      {| raised := None;
         disk := fun p => if String.eqb p path then Some (contents ++ data)%string
                          else fs p |}
  | None =>
      match obstacle path with
      | Some e => {| raised := Some e; disk := fs |}
      | None =>
          {| raised := None;
             disk := fun p => if String.eqb p path then Some data else fs p |}
      end
  end.

Section Reporter.
Context {interpolation : Interpolation} {volume : Volume}.

(** [interface Entry] *)
Record Entry : Type := {
  testSuite : string;
  testName : string;
  valueName : string;
  value : Number;
  info : JsValue;
}.

(** [class PerfReporter] *)
Record t : Type := {
  _entries : list Entry;
}.

(** [new PerfReporter()]: [_entries = []] *)
Definition create : t := {| _entries := [] |}.

(** [addEntry(testSuite, testName, valueName, value, info)] *)
Definition addEntry (testSuite testName valueName : string) (value : Number)
    (info : JsValue) (this : t) : t :=
  let entry := {| testSuite := testSuite; testName := testName;
                  valueName := valueName; value := value; info := info |} in
  {| _entries := _entries this ++ [entry] |}.

(** The line the loop of [exportCSV] adds for an entry: the template
    literal with its five interpolations and the line feed. *)
Definition line (entry : Entry) : string :=
  (testName entry ++ "," ++ testSuite entry ++ "," ++ valueName entry ++ ","
   ++ ofNumber (value entry) ++ "," ++ ofAny (info entry) ++ LF)%string.

(** The header [exportCSV] writes to a file that does not exist yet. *)
Definition header : string :=
  ("Test Suite,Test Name,Value Name,Value,Info" ++ LF)%string.

(** [exportCSV(fileName)]; what [fs.appendFileSync] throws, it throws. *)
Definition exportCSV (fileName : string) (this : t) (fs : FileSystem) : Written :=
  let finalReport := EmptyString in
  let fileName :=
    if negb (endsWith fileName ".csv") then (fileName ++ ".csv")%string else fileName in
  let finalReport :=
    if negb (existsSync fs fileName) then (finalReport ++ header)%string
    else finalReport in
  let finalReport :=
    fold_left (fun report entry => (report ++ line entry)%string) (_entries this)
      finalReport in
  appendFileSync fileName finalReport fs.

(** *** The vocabulary of its properties *)

(** The file [exportCSV] writes to when asked for [fileName]. *)
Definition csvName (fileName : string) : string :=
  if endsWith fileName ".csv" then fileName else (fileName ++ ".csv")%string.

(** The lines of the entries, in the order of [_entries]. *)
Definition lines (this : t) : string :=
  String.concat "" (map line (_entries this)).

End Reporter.

(** What a reader of the file sees: [s.split(separator)], the pieces of
    [s] between its separators, and the number of its separators. *)
Fixpoint splitAt (separator : Ascii.ascii) (s : string) : list string :=
  match s with
  | EmptyString => [EmptyString]
  | String c rest =>
      if Ascii.eqb c separator then EmptyString :: splitAt separator rest
      else
        match splitAt separator rest with
        | [] => [String c EmptyString]
        | piece :: pieces => String c piece :: pieces
        end
  end.

Fixpoint occurrences (separator : Ascii.ascii) (s : string) : nat :=
  match s with
  | EmptyString => 0
  | String c rest =>
      (if Ascii.eqb c separator then 1 else 0) + occurrences separator rest
  end.

(** An interpolation for the examples: numbers are integers written in
    decimal by the caller, and an [any] is a string or is shown as an
    object is. *)
Definition plainInterpolation : Interpolation :=
  {| Number := string;
     ofNumber := fun n => n;
     ofAny := fun v => match v with
                       | JsString s => s
                       | _ => "[object Object]"%string
                       end |}.

Definition emptyDisk : FileSystem := fun _ => None.

(** A volume for the examples: there is no directory [nodir], and
    [logs.csv] is a directory. *)
Definition plainVolume : Volume :=
  {| obstacle := fun path =>
       if String.eqb path "nodir/report.csv" then Some ENOENT
       else if String.eqb path "logs.csv" then Some EISDIR
       else None |}.

End PerfReporter.

(** ** AzureFileHandler

    The upload half of the class [AzureFileHandler]: a file is sent to the
    blob storage in blocks of four mebibytes, one request per block, and
    committed by a last request that lists the blocks. *)

Module AzureFileHandler.

(** How a promise settles: resolved, or rejected with what the handler
    rejects with itself or with what a request failed with. *)
Inductive Failure : Type :=
| BrowserError
| FileNotFound (message : string)
| RequestError (detail : string).

Inductive Settled (A : Type) : Type :=
| Resolved (a : A)
| RejectedWith (failure : Failure).
Arguments Resolved {A} a.
Arguments RejectedWith {A} failure.

(** [RequestOptions], as far as the uploads fill it in. *)
Inductive HeaderValue : Type :=
| HeaderText (text : string)
| HeaderNumber (n : N).

Inductive Body : Type :=
| BufferBody (bytes : list Byte.byte)
| TextBody (text : string).

Record RequestOptions : Type := {
  method : string;
  headers : list (string * HeaderValue);
  body : Body;
}.

(** The collaborators: [Config.isBrowser()], [Base64.encode], the function
    [request] of the module Request, which settles one way or the other
    for each request made, and the files on disk with their bytes. *)
Class Platform : Type := {
  isBrowser : bool;
  encode : string -> string;
  request : string -> RequestOptions -> Settled unit;
  disk : string -> option (list Byte.byte);
}.

(** [n.toString(16)] for a natural number: its hexadecimal digits, the most
    significant first, "0" for 0. *)
Definition hexDigit (d : N) : ascii :=
  match d with
  | 0 => "0" | 1 => "1" | 2 => "2" | 3 => "3" | 4 => "4" | 5 => "5" | 6 => "6"
  | 7 => "7" | 8 => "8" | 9 => "9" | 10 => "a" | 11 => "b" | 12 => "c"
  | 13 => "d" | 14 => "e" | _ => "f"
  end%N%char.

Fixpoint hexDigits (fuel : nat) (n : N) (lower : string) : string :=
  match fuel with
  | O => lower
  | S fuel' =>
      let digits := String (hexDigit (n mod 16)) lower in
      if (n / 16 =? 0)%N then digits else hexDigits fuel' (n / 16) digits
  end.

Definition toString16 (n : N) : string :=
  hexDigits (S (N.to_nat (N.log2 n))) n EmptyString.

(** [s.padStart(targetLength, pad)] for a pad of one character. *)
Fixpoint fill (count : nat) (pad : ascii) (s : string) : string :=
  match count with
  | O => s
  | S count' => String pad (fill count' pad s)
  end.

Definition padStart (targetLength : nat) (pad : ascii) (s : string) : string :=
  fill (targetLength - String.length s) pad s.

(** [parseInt(s, 16)] on a string of hexadecimal digits: what a reader of
    a block id makes of it. *)
Definition hexValue (c : ascii) : N :=
  let code := N_of_ascii c in
  if (48 <=? code)%N && (code <=? 57)%N then code - 48
  else if (97 <=? code)%N && (code <=? 102)%N then code - 87
  else 0.

Fixpoint parseHexFrom (value : N) (s : string) : N :=
  match s with
  | EmptyString => value
  | String c rest => parseHexFrom (16 * value + hexValue c) rest
  end.

Definition parseHex (s : string) : N := parseHexFrom 0 s.

(** [buffer.slice(0, count)] and the bytes of a file from a position on,
    with positions and counts as the numbers they are. *)
Fixpoint take {A} (count : N) (l : list A) : list A :=
  match l with
  | [] => []
  | x :: rest => if (count =? 0)%N then [] else x :: take (N.pred count) rest
  end.

Fixpoint drop {A} (count : N) (l : list A) : list A :=
  match l with
  | [] => []
  | x :: rest => if (count =? 0)%N then l else drop (N.pred count) rest
  end.

(** What a run of an asynchronous method comes to: how its promise settled
    ([None] while the loop of [uploadFile] still runs as the fuel runs
    out), and the requests it made, in order. *)
Record Run (A : Type) : Type := {
  settled : option (Settled A);
  requests : list (string * RequestOptions);
}.
Arguments settled {A} r.
Arguments requests {A} r.

Definition resolve {A} (a : A) : Run A :=
  {| settled := Some (Resolved a); requests := [] |}.

Definition reject {A} (failure : Failure) : Run A :=
  {| settled := Some (RejectedWith failure); requests := [] |}.

Definition andThen {A B} (run : Run A) (next : A -> Run B) : Run B :=
  match settled run with
  | Some (Resolved a) =>
      {| settled := settled (next a); requests := requests run ++ requests (next a) |}
  | Some (RejectedWith failure) =>
      {| settled := Some (RejectedWith failure); requests := requests run |}
  | None => {| settled := None; requests := requests run |}
  end.

Section Handler.
Context {platform : Platform}.

(** [await request(url, options)] *)
Definition awaitRequest (url : string) (options : RequestOptions) : Run unit :=
  {| settled := Some (request url options); requests := [(url, options)] |}.

(** [const chunkSize = 4 * 1024 * 1024] *)
Definition chunkSize : N := 4 * 1024 * 1024.

(** [getBlockId(blockId)] *)
Definition getBlockId (blockId : N) : string :=
  encode (padStart 5 "0" (toString16 blockId)).

(** [uploadChunk(uploadUrlString, fileDescriptor, blockId)]; the
    descriptor stands for the bytes of the file it was opened on. *)
Definition uploadChunk (uploadUrlString : string) (fileDescriptor : list Byte.byte)
    (blockId : N) : Run unit :=
  let buffer := take chunkSize (drop (chunkSize * blockId) fileDescriptor) in
  let options :=
    {| method := "PUT";
       headers := [ ("x-ms-blob-type"%string, HeaderText "BlockBlob");
                    ("Content-Type"%string, HeaderText "application/octet-stream");
                    ("Content-Length"%string, HeaderNumber (N.of_nat (length buffer))) ];
       body := BufferBody buffer |} in
  let uploadUrl :=
    (uploadUrlString ++ "&comp=block&blockid=" ++ getBlockId blockId)%string in
  awaitRequest uploadUrl options.

(** The double quote. *)
Definition quote : string := String (ascii_of_nat 34) EmptyString.

(** The loop of [uploadFile], from block [i] on. *)
Fixpoint uploadBlocks (fuel : nat) (uploadUrlString : string) (file : list Byte.byte)
    (fileSize : N) (i : N) (blockList : string) : Run string :=
  if (i * chunkSize <? fileSize)%N then
    match fuel with
    | O => {| settled := None; requests := [] |}
    | S fuel' =>
        andThen (uploadChunk uploadUrlString file i) (fun _ =>
        let blockList := (blockList ++ "<Latest>" ++ getBlockId i ++ "</Latest>")%string in
        uploadBlocks fuel' uploadUrlString file fileSize (i + 1) blockList)
    end
  else resolve blockList.

(** [uploadFile(uploadUrlString, uploadFromPathname)] *)
Definition uploadFile (fuel : nat) (uploadUrlString uploadFromPathname : string) : Run unit :=
  if isBrowser then reject BrowserError
  else
    match disk uploadFromPathname with
    | None =>
        reject (FileNotFound
                  ("Could not find file at specified location: " ++ uploadFromPathname))
    | Some file =>
        let fileSize := N.of_nat (length file) in
        let blockList :=
          ("<?xml version=" ++ quote ++ "1.0" ++ quote ++ " encoding=" ++ quote
           ++ "utf-8" ++ quote ++ "?><BlockList>")%string in
        andThen (uploadBlocks fuel uploadUrlString file fileSize 0 blockList)
          (fun blockList =>
        let blockList := (blockList ++ "</BlockList>")%string in
        let options :=
          {| method := "PUT";
             headers := [ ("Content-Type"%string, HeaderText "application/xml");
                          ("Content-Length"%string,
                           HeaderNumber (N.of_nat (String.length blockList))) ];
             body := TextBody blockList |} in
        let uploadUrl := (uploadUrlString ++ "&comp=blocklist")%string in
        awaitRequest uploadUrl options)
    end.

(** *** The vocabulary of its properties *)

(** The number of blocks of a file of [fileSize] bytes. *)
Definition blockCount (fileSize : N) : N := (fileSize + chunkSize - 1) / chunkSize.

(** The bytes a request carries, none when its body is a text. *)
Definition bufferOf (made : string * RequestOptions) : list Byte.byte :=
  match body (snd made) with
  | BufferBody bytes => bytes
  | TextBody _ => []
  end.

(** The block numbers [start], [start + 1], ..., [count] of them. *)
Fixpoint blockNumbers (start : N) (count : nat) : list N :=
  match count with
  | O => []
  | S count' => start :: blockNumbers (start + 1) count'
  end.

(** The entry of a block in the block list. *)
Definition latest (blockId : N) : string :=
  ("<Latest>" ++ getBlockId blockId ++ "</Latest>")%string.

(** The block list that names the blocks of [numbers], in that order. *)
Definition blockListOf (numbers : list N) : string :=
  ("<?xml version=" ++ quote ++ "1.0" ++ quote ++ " encoding=" ++ quote
   ++ "utf-8" ++ quote ++ "?><BlockList>"
   ++ String.concat "" (map latest numbers)
   ++ "</BlockList>")%string.

(** The text [getBlockId] hands to [Base64.encode]. *)
Definition blockIdDigits (blockId : N) : string :=
  padStart 5 "0" (toString16 blockId).

(** The request [uploadChunk] makes for block [blockId]. *)
Definition blockRequest (uploadUrlString : string) (file : list Byte.byte) (blockId : N)
  : string * RequestOptions :=
  let buffer := take chunkSize (drop (chunkSize * blockId) file) in
  ((uploadUrlString ++ "&comp=block&blockid=" ++ getBlockId blockId)%string,
   {| method := "PUT";
      headers := [ ("x-ms-blob-type"%string, HeaderText "BlockBlob");
                   ("Content-Type"%string, HeaderText "application/octet-stream");
                   ("Content-Length"%string, HeaderNumber (N.of_nat (length buffer))) ];
      body := BufferBody buffer |}).

(** The request that commits [blockList]. *)
Definition commitRequest (uploadUrlString blockList : string) : string * RequestOptions :=
  ((uploadUrlString ++ "&comp=blocklist")%string,
   {| method := "PUT";
      headers := [ ("Content-Type"%string, HeaderText "application/xml");
                   ("Content-Length"%string,
                    HeaderNumber (N.of_nat (String.length blockList))) ];
      body := TextBody blockList |}).

(** Every request succeeds. *)
Definition reliable : Prop :=
  forall url options, request url options = Resolved tt.

End Handler.

(** A platform for the examples: not a browser, every request succeeds,
    block ids left as they are, one file of three bytes and one of none. *)
Definition desktop : Platform :=
  {| isBrowser := false;
     encode := fun s => s;
     request := fun _ _ => Resolved tt;
     disk := fun path =>
       if String.eqb path "model.bim" then Some [Byte.x01; Byte.x02; Byte.x03]
       else if String.eqb path "empty.bim" then Some []
       else None |}.

(** The same with no request getting through. *)
Definition offline : Platform :=
  {| isBrowser := false;
     encode := fun s => s;
     request := fun _ _ => RejectedWith (RequestError "offline");
     disk := disk (Platform := desktop) |}.

End AzureFileHandler.

(** ** Properties *)

Section Properties.
Context {marshaling : RpcMarshaling} {protocol : MobileRpcProtocol} {code : ListenerCode}.

Lemma withListeners_same (this : MobileIpcTransport) :
  withListeners this (_listeners this) = this.
Proof. destruct this; reflexivity. Qed.

Lemma listenAll_appends (handlers : list Listener) (this : MobileIpcTransport) :
  listenAll handlers this =
  {| completion := Some (Returns tt);
     after := withListeners this (_listeners this ++ handlers);
     events := [] |}.
Proof.
  revert this; induction handlers as [|handler rest IH]; intros this.
  - simpl. unfold ret. rewrite app_nil_r, withListeners_same. reflexivity.
  - simpl. unfold bind, listen. simpl. rewrite IH. simpl.
    unfold withListeners. simpl. rewrite <- app_assoc. reflexivity.
Qed.

Lemma invoke_outcome (listener : Listener) (message : JsValue) (this : MobileIpcTransport) :
  invoke listener message this =
  {| completion := Some (match ends (reacts listener message) with
                         | Returns _ => Returns (leaves (reacts listener message))
                         | Throws e => Throws e
                         end);
     after := withListeners this (_listeners this ++ reenters listener message);
     events := [Call listener message] |}.
Proof.
  unfold invoke, reenters, bind, emit. cbn [completion after events].
  rewrite listenAll_appends. cbn [completion after events].
  unfold attempt, ret. cbn [completion after events].
  destruct (ends (reacts listener message)) as [[]|e]; reflexivity.
Qed.

Lemma invoke_onlyReads (listener : Listener) (message : JsValue) (this : MobileIpcTransport) :
  onlyReads message listener ->
  invoke listener message this =
  {| completion := Some (Returns message); after := this;
     events := [Call listener message] |}.
Proof.
  intros Hreads. unfold onlyReads in Hreads.
  rewrite invoke_outcome. unfold reenters. rewrite !Hreads.
  cbn [registers leaves ends]. rewrite app_nil_r, withListeners_same. reflexivity.
Qed.

(** One turn of the loop of [broadcast]. *)
Lemma broadcastFrom_step (fuel index : nat) (message : JsValue)
    (this : MobileIpcTransport) (listener : Listener) :
  nth_error (_listeners this) index = Some listener ->
  broadcastFrom (S fuel) index message this =
  let this' := withListeners this (_listeners this ++ reenters listener message) in
  match ends (reacts listener message) with
  | Returns _ =>
      let o := broadcastFrom fuel (S index) (leaves (reacts listener message)) this' in
      {| completion := completion o; after := after o;
         events := Call listener message :: events o |}
  | Throws e =>
      {| completion := Some (Throws e); after := this';
         events := [Call listener message] |}
  end.
Proof.
  intros Hnth. simpl. rewrite Hnth. unfold bind. rewrite invoke_outcome.
  cbn [completion after events].
  destruct (ends (reacts listener message)) as [[]|e]; reflexivity.
Qed.

Lemma broadcastFrom_done (fuel index : nat) (message : JsValue) (this : MobileIpcTransport) :
  length (_listeners this) <= index ->
  broadcastFrom fuel index message this = ret tt this.
Proof.
  intros Hlen. apply nth_error_None in Hlen.
  destruct fuel; simpl; rewrite Hlen; reflexivity.
Qed.

(** Across listeners that only read, the loop calls each in turn with the
    message as it is and leaves the instance as it was. *)
Lemma broadcastFrom_readers_run (message : JsValue) (run : list Listener) :
  Forall (onlyReads message) run ->
  forall (done rest : list Listener) (client : RpcInterface) (fuel : nat),
    broadcastFrom (length run + fuel) (length done) message
      {| _listeners := done ++ run ++ rest; _client := client |} =
    let o := broadcastFrom fuel (length done + length run) message
               {| _listeners := done ++ run ++ rest; _client := client |} in
    {| completion := completion o; after := after o;
       events := deliveries message run ++ events o |}.
Proof.
  induction 1 as [|listener run Hreads Hrun IH]; intros done rest client fuel.
  - simpl. rewrite Nat.add_0_r.
    destruct (broadcastFrom fuel (length done) message _); reflexivity.
  - cbn [length Nat.add].
    rewrite broadcastFrom_step with (listener := listener).
    2:{ simpl. rewrite nth_error_app2, Nat.sub_diag by lia. reflexivity. }
    unfold onlyReads in Hreads. unfold reenters. rewrite !Hreads.
    cbn [registers leaves ends]. cbn zeta.
    rewrite app_nil_r. unfold withListeners. cbn [_listeners _client].
    specialize (IH (done ++ [listener]) rest client fuel).
    rewrite <- !app_assoc, length_app in IH. cbn [length app] in IH.
    replace (length done + 1) with (S (length done)) in IH by lia.
    change ((listener :: run) ++ rest) with (listener :: run ++ rest).
    cbn zeta in IH. rewrite IH.
    replace (S (length done) + length run) with (length done + S (length run)) by lia.
    reflexivity.
Qed.

Lemma broadcast_readers (message : JsValue) (this : MobileIpcTransport) (fuel : nat) :
  Forall (onlyReads message) (_listeners this) ->
  length (_listeners this) <= fuel ->
  broadcast fuel message this =
  {| completion := Some (Returns tt); after := this;
     events := deliveries message (_listeners this) |}.
Proof.
  intros Hreads Hfuel. unfold broadcast. destruct this as [listeners client].
  cbn [_listeners] in *.
  replace fuel with (length listeners + (fuel - length listeners)) by lia.
  pose proof (broadcastFrom_readers_run Hreads [] [] client (fuel - length listeners)) as Hrun.
  cbn [app length Nat.add] in Hrun. rewrite app_nil_r in Hrun. rewrite Hrun.
  rewrite broadcastFrom_done by (cbn; lia).
  cbn. rewrite app_nil_r. reflexivity.
Qed.

Lemma skipn_nth_error {A} (l : list A) (index : nat) (x : A) :
  nth_error l index = Some x -> skipn index l = x :: skipn (S index) l.
Proof.
  revert index; induction l as [|y l IH]; intros [|index]; cbn; try discriminate.
  - intros H. injection H as ->. reflexivity.
  - apply IH.
Qed.

(** The loop in full. Whatever the listeners do, the calls go down the
    listener list from [index], one per entry and in order, each made with
    the message as the call before left it; the list ends up as it was at
    the start, followed by what the called listeners registered; and the
    loop ends in one of three ways: every entry of the list as it then
    stands has been called and each call returned; or the last call made
    threw, which is what the loop throws; or the fuel is used up with
    entries still to call. *)
Lemma broadcastFrom_trace (fuel : nat) :
  forall (message : JsValue) (index : nat) (this : MobileIpcTransport),
    let o := broadcastFrom fuel index message this in
    exists calls pending,
      events o = map called calls /\
      chained message calls /\
      skipn index (_listeners (after o)) = map fst calls ++ pending /\
      _listeners (after o) =
        _listeners this ++ flat_map (fun call => reenters (fst call) (snd call)) calls /\
      ((completion o = Some (Returns tt) /\ pending = [] /\ Forall returned calls) \/
       (exists e before last,
          completion o = Some (Throws e) /\ calls = before ++ [last] /\
          Forall returned before /\ threw e last) \/
       (completion o = None /\ length calls = fuel /\ pending <> [] /\
        Forall returned calls)).
Proof.
  induction fuel as [|fuel IH]; intros message index this;
    destruct (nth_error (_listeners this) index) as [listener|] eqn:Hnth.
  - cbn. rewrite Hnth. cbn. exists [], (skipn index (_listeners this)).
    split; [reflexivity|]. split; [exact I|]. split; [reflexivity|].
    split; [rewrite app_nil_r; reflexivity|].
    right. right. split; [reflexivity|]. split; [reflexivity|].
    split; [|constructor].
    rewrite (skipn_nth_error _ _ Hnth). discriminate.
  - cbn. rewrite Hnth. cbn. exists [], [].
    split; [reflexivity|]. split; [exact I|].
    split; [apply skipn_all2, nth_error_None, Hnth|].
    split; [rewrite app_nil_r; reflexivity|].
    left. repeat split. constructor.
  - cbn zeta. rewrite broadcastFrom_step with (listener := listener) by assumption.
    cbn zeta.
    assert (Hat : forall more,
               nth_error ((_listeners this ++ reenters listener message) ++ more) index
               = Some listener).
    { intros more. rewrite <- app_assoc, nth_error_app1; [exact Hnth|].
      apply nth_error_Some. rewrite Hnth. discriminate. }
    destruct (ends (reacts listener message)) as [[]|e] eqn:Hends.
    + cbn [events completion after].
      destruct (IH (leaves (reacts listener message)) (S index)
                  (withListeners this (_listeners this ++ reenters listener message)))
        as (calls & pending & Hevents & Hchained & Hskip & Hfinal & Hend).
      cbn [withListeners _listeners] in Hfinal.
      exists ((listener, message) :: calls), pending.
      split; [rewrite Hevents; reflexivity|].
      split; [split; [reflexivity|exact Hchained]|].
      split.
      { rewrite skipn_nth_error with (x := listener); [rewrite Hskip; reflexivity|].
        rewrite Hfinal. apply Hat. }
      split; [rewrite Hfinal, <- app_assoc; reflexivity|].
      destruct Hend as [(Hdone & Hnil & Hall)|[(e & before & last & Hthrown & Hcalls & Hall & Hlast)
                                              |(Hrunning & Hlength & Hpending & Hall)]].
      * left. repeat split; try assumption. constructor; assumption.
      * right. left. exists e, ((listener, message) :: before), last.
        repeat split; try assumption.
        -- rewrite Hcalls. reflexivity.
        -- constructor; assumption.
      * right. right. repeat split; try assumption.
        -- cbn [length]. rewrite Hlength. reflexivity.
        -- constructor; assumption.
    + cbn [events completion after withListeners _listeners].
      exists [(listener, message)],
             (skipn (S index) (_listeners this ++ reenters listener message)).
      split; [reflexivity|]. split; [split; [reflexivity|exact I]|].
      split.
      { rewrite skipn_nth_error with (x := listener); [reflexivity|].
        specialize (Hat []). rewrite app_nil_r in Hat. exact Hat. }
      split; [cbn; rewrite app_nil_r; reflexivity|].
      right. left. exists e, [], (listener, message).
      repeat split; [constructor|exact Hends].
  - cbn zeta. rewrite broadcastFrom_done by (apply nth_error_None; assumption).
    cbn. exists [], [].
    split; [reflexivity|]. split; [exact I|].
    split; [apply skipn_all2, nth_error_None, Hnth|].
    split; [rewrite app_nil_r; reflexivity|].
    left. repeat split. constructor.
Qed.

Lemma IPC_is_sentinel (name : string) :
  name = IPC -> negb (String.eqb name IPC) = false.
Proof. intros ->. rewrite String.eqb_refl. reflexivity. Qed.

Lemma not_sentinel (name : string) :
  name <> IPC -> negb (String.eqb name IPC) = true.
Proof. intros Hne. apply negb_true_iff, String.eqb_neq, Hne. Qed.

Lemma bind_attempt_Returns {A B} (a : A) (k : A -> M B) (this : MobileIpcTransport) :
  bind (attempt (Returns a)) k this = k a this.
Proof. unfold bind, attempt. cbn. destruct (k a this); reflexivity. Qed.

Lemma bind_attempt_Throws {A B} (e : Error) (k : A -> M B) (this : MobileIpcTransport) :
  bind (attempt (Throws e)) k this =
  {| completion := Some (Throws e); after := this; events := [] |}.
Proof. reflexivity. Qed.

(** A message the transport takes for its own is broadcast, and nothing
    else is done with it. *)
Lemma consume_unwraps (fuel : nat) (inbound : SerializedRpcRequest + RpcRequestFulfillment)
    (message : JsValue) (this : MobileIpcTransport) :
  unwraps inbound message ->
  consume fuel inbound this = (broadcast fuel message ;; ret true) this.
Proof.
  destruct inbound as [request|response]; cbn [unwraps consume].
  - intros [Hipc (values & Hvalues & Hmessage)].
    unfold consumeRequest. rewrite (IPC_is_sentinel Hipc). cbn [negb].
    rewrite Hvalues, bind_attempt_Returns, Hmessage, bind_attempt_Returns.
    reflexivity.
  - intros [Hipc Hmessage].
    unfold consumeResponse. rewrite (IPC_is_sentinel Hipc). cbn [negb].
    rewrite Hmessage, bind_attempt_Returns. reflexivity.
Qed.

Lemma broadcast_then_true_readers (fuel : nat) (message : JsValue)
    (this : MobileIpcTransport) :
  Forall (onlyReads message) (_listeners this) ->
  length (_listeners this) <= fuel ->
  (broadcast fuel message ;; ret true) this =
  {| completion := Some (Returns true); after := this;
     events := deliveries message (_listeners this) |}.
Proof.
  intros Hreads Hfuel. unfold bind. rewrite broadcast_readers by assumption.
  cbn. rewrite app_nil_r. reflexivity.
Qed.

Lemma consume_readers (fuel : nat) (inbound : SerializedRpcRequest + RpcRequestFulfillment)
    (message : JsValue) (this : MobileIpcTransport) :
  unwraps inbound message ->
  Forall (onlyReads message) (_listeners this) ->
  length (_listeners this) <= fuel ->
  consume fuel inbound this =
  {| completion := Some (Returns true); after := this;
     events := deliveries message (_listeners this) |}.
Proof.
  intros Hunwraps Hreads Hfuel.
  rewrite consume_unwraps with (message := message) by assumption.
  apply broadcast_then_true_readers; assumption.
Qed.

(** C3: a request whose interface is not the sentinel is declined:
    [consumeRequest] returns false, calls no listener and leaves the
    instance as it was. *)
Theorem consumeRequest_declines_other_interfaces
    (fuel : nat) (request : SerializedRpcRequest) (this : MobileIpcTransport) :
  interfaceDefinition (operation request) <> IPC ->
  consumeRequest fuel request this =
  {| completion := Some (Returns false); after := this; events := [] |}.
Proof.
  intros Hother. unfold consumeRequest. rewrite (not_sentinel Hother). reflexivity.
Qed.

(** C10: a message whose type tag is none of Send, Invoke, Push and
    Response is dropped by [send]: the call returns, nothing is handed to the
    channel in either direction, and the instance is as it was. *)
Theorem send_drops_unknown_type (message : IpcWebSocketMessage) (this : MobileIpcTransport) :
  ~ In (type message) IpcWebSocketMessageType.members ->
  send message this =
  {| completion := Some (Returns tt); after := this; events := [] |}.
Proof.
  intros Hunknown. unfold send.
  destruct (Z.eqb_spec (type message) IpcWebSocketMessageType.Send) as [E|_];
    [exfalso; apply Hunknown; rewrite E; cbn; tauto|].
  destruct (Z.eqb_spec (type message) IpcWebSocketMessageType.Invoke) as [E|_];
    [exfalso; apply Hunknown; rewrite E; cbn; tauto|].
  destruct (Z.eqb_spec (type message) IpcWebSocketMessageType.Push) as [E|_];
    [exfalso; apply Hunknown; rewrite E; cbn; tauto|].
  destruct (Z.eqb_spec (type message) IpcWebSocketMessageType.Response) as [E|_];
    [exfalso; apply Hunknown; rewrite E; cbn; tauto|].
  reflexivity.
Qed.

(** C4, as the code has it: with N listeners registered by [listen], in
    that order, on a new instance, none of which registers a listener,
    throws or writes to the envelope while handling it, an inbound message
    that carries an envelope (in a request or in a fulfillment) is handled
    by N calls, one per listener, in registration order, each with that
    same envelope, all made before the handling call returns. *)
Theorem broadcast_fan_out
    (N : nat) (handlers : list Listener) (message : JsValue)
    (inbound : SerializedRpcRequest + RpcRequestFulfillment) (fuel : nat) :
  length handlers = N ->
  unwraps inbound message ->
  Forall (onlyReads message) handlers ->
  N <= fuel ->
  let this := after (listenAll handlers constructor) in
  let o := consume fuel inbound this in
  completion o = Some (Returns true) /\
  events o = map (fun listener => Call listener message) handlers /\
  length (events o) = N /\
  after o = this.
Proof.
  intros HN Hunwraps Hreads Hfuel this o. subst o this.
  rewrite listenAll_appends. unfold withListeners, constructor.
  cbn [after _listeners _client app].
  rewrite consume_readers with (message := message);
    cbn [_listeners completion events after]; try assumption; try lia.
  unfold deliveries. rewrite length_map. auto.
Qed.

(** *** The listener list only grows *)

Lemma extends_refl (this : MobileIpcTransport) : extends this this.
Proof. split; [exists []; rewrite app_nil_r|]; reflexivity. Qed.

Lemma extends_trans (t1 t2 t3 : MobileIpcTransport) :
  extends t1 t2 -> extends t2 t3 -> extends t1 t3.
Proof.
  intros [[a12 H12] C12] [[a23 H23] C23]. split.
  - exists (a12 ++ a23). rewrite H23, H12, app_assoc. reflexivity.
  - congruence.
Qed.

Lemma appendOnly_ret {A} (a : A) : appendOnly (ret a).
Proof. intros this. apply extends_refl. Qed.

Lemma appendOnly_emit (e : Event) : appendOnly (emit e).
Proof. intros this. apply extends_refl. Qed.

Lemma appendOnly_attempt {A} (r : Result A) : appendOnly (attempt r).
Proof. intros this. apply extends_refl. Qed.

Lemma appendOnly_await {A} (p : Promise A) : appendOnly (await p).
Proof. intros this. apply extends_refl. Qed.

Lemma appendOnly_this_client : appendOnly this_client.
Proof. intros this. apply extends_refl. Qed.

Lemma appendOnly_spin {A} : appendOnly (@spin _ _ _ A).
Proof. intros this. apply extends_refl. Qed.

Lemma appendOnly_bind {A B} (m : M A) (k : A -> M B) :
  appendOnly m -> (forall a, appendOnly (k a)) -> appendOnly (bind m k).
Proof.
  intros Hm Hk this. unfold bind. specialize (Hm this).
  destruct (completion (m this)) as [[a|e]|]; cbn [after]; auto.
  eapply extends_trans; [exact Hm|apply Hk].
Qed.

Lemma appendOnly_async {A} (body : M A) : appendOnly body -> appendOnly (async body).
Proof.
  intros Hbody this. unfold async. specialize (Hbody this).
  destruct (completion (body this)); exact Hbody.
Qed.

Lemma appendOnly_floating {A} (call : M (Promise A)) :
  appendOnly call -> appendOnly (floating call).
Proof.
  intros Hcall. apply appendOnly_bind; [exact Hcall|].
  intros [a|e]; [apply appendOnly_ret|apply appendOnly_emit].
Qed.

Lemma appendOnly_listen (handler : Listener) : appendOnly (listen handler).
Proof. intros this. split; [exists [handler]|]; reflexivity. Qed.

Lemma appendOnly_invoke (listener : Listener) (message : JsValue) :
  appendOnly (invoke listener message).
Proof.
  intros this. rewrite invoke_outcome. split; [eexists|]; reflexivity.
Qed.

Lemma appendOnly_broadcastFrom (fuel index : nat) (message : JsValue) :
  appendOnly (broadcastFrom fuel index message).
Proof.
  revert index message; induction fuel as [|fuel IH]; intros index message this;
    cbn [broadcastFrom];
    destruct (nth_error (_listeners this) index) as [listener|];
    try apply extends_refl.
  apply appendOnly_bind; [apply appendOnly_invoke|intros message'; apply IH].
Qed.

Create HintDb append_only.
#[local] Hint Resolve appendOnly_ret appendOnly_emit appendOnly_attempt appendOnly_await
  appendOnly_this_client appendOnly_bind appendOnly_async appendOnly_floating
  appendOnly_listen appendOnly_broadcastFrom : append_only.

Lemma appendOnly_consumeRequest (fuel : nat) (request : SerializedRpcRequest) :
  appendOnly (consumeRequest fuel request).
Proof.
  unfold consumeRequest, broadcast.
  destruct (negb _); auto 10 with append_only.
Qed.

Lemma appendOnly_consumeResponse (fuel : nat) (response : RpcRequestFulfillment) :
  appendOnly (consumeResponse fuel response).
Proof.
  unfold consumeResponse, broadcast.
  destruct (negb _); auto 10 with append_only.
Qed.

Lemma appendOnly_send (message : IpcWebSocketMessage) : appendOnly (send message).
Proof.
  unfold send, sendToBackend, sendToFrontend.
  destruct (_ || _); [|destruct (_ || _)]; auto 12 with append_only.
Qed.

Lemma perform_extends (op : Operation) (this : MobileIpcTransport) :
  extends this (perform op this).
Proof.
  destruct op; cbn [perform].
  - apply appendOnly_send.
  - apply appendOnly_listen.
  - apply appendOnly_consumeRequest.
  - apply appendOnly_consumeResponse.
Qed.

(** C9: over any history of calls to the methods of an instance ([send],
    [listen], [consumeRequest], [consumeResponse]; there is no method that
    removes a listener), the listener list at the end is the list at the
    start, in the same order, with listeners appended to it or none. *)
Theorem listeners_append_only (ops : list Operation) (this : MobileIpcTransport) :
  exists appended,
    _listeners (performAll ops this) = _listeners this ++ appended.
Proof.
  cut (extends this (performAll ops this)); [intros [H _]; exact H|].
  revert this; induction ops as [|op ops IH]; intros this; cbn [performAll fold_left].
  - apply extends_refl.
  - eapply extends_trans; [apply perform_extends|apply IH].
Qed.

(** *** Inbound messages that cannot be read *)

Lemma consume_malformed (fuel : nat) (inbound : SerializedRpcRequest + RpcRequestFulfillment)
    (e : Error) (this : MobileIpcTransport) :
  malformed inbound e ->
  consume fuel inbound this =
  {| completion := Some (Throws e); after := this; events := [] |}.
Proof.
  destruct inbound as [request|response]; cbn [malformed consume].
  - intros [Hipc [Hthrows|(values & Hvalues & Hthrows)]];
      unfold consumeRequest; rewrite (IPC_is_sentinel Hipc); cbn [negb].
    + rewrite Hthrows. reflexivity.
    + rewrite Hvalues, bind_attempt_Returns, Hthrows. reflexivity.
  - intros [Hipc Hthrows].
    unfold consumeResponse. rewrite (IPC_is_sentinel Hipc). cbn [negb].
    rewrite Hthrows. reflexivity.
Qed.

(** C6, as the code has it: an inbound message with the sentinel whose
    payload does not deserialize makes the consuming call throw that one
    error; no listener is called and nothing else happens, the instance
    (its listener list included) is as before, and the next well-formed
    inbound message, a request or a fulfillment, is deserialized and
    broadcast as if the bad one had not arrived: to every listener, when
    the listeners only read. *)
Theorem malformed_inbound_is_isolated
    (fuel : nat) (bad : SerializedRpcRequest + RpcRequestFulfillment) (e : Error)
    (this : MobileIpcTransport)
    (fuel' : nat) (next : SerializedRpcRequest + RpcRequestFulfillment) (message : JsValue) :
  malformed bad e ->
  unwraps next message ->
  let failed := consume fuel bad this in
  completion failed = Some (Throws e) /\
  events failed = [] /\
  after failed = this /\
  consume fuel' next (after failed) = (broadcast fuel' message ;; ret true) this /\
  (Forall (onlyReads message) (_listeners this) ->
   length (_listeners this) <= fuel' ->
   consume fuel' next (after failed) =
   {| completion := Some (Returns true); after := this;
      events := map (fun listener => Call listener message) (_listeners this) |}).
Proof.
  intros Hbad Hnext failed. subst failed.
  rewrite consume_malformed with (e := e) by assumption. cbn [completion events after].
  split; [reflexivity|]. split; [reflexivity|]. split; [reflexivity|]. split.
  - apply consume_unwraps, Hnext.
  - intros Hreads Hfuel. apply consume_readers; assumption.
Qed.


(** *** Outbound envelopes *)

Lemma send_towardBackend (message : IpcWebSocketMessage) :
  towardBackend message -> send message = floating (sendToBackend message).
Proof. unfold send. intros [-> | ->]; reflexivity. Qed.

Lemma send_towardFrontend (message : IpcWebSocketMessage) :
  towardFrontend message -> send message = floating (sendToFrontend message).
Proof. unfold send. intros [-> | ->]; reflexivity. Qed.

Lemma members_directions (message : IpcWebSocketMessage) :
  In (type message) IpcWebSocketMessageType.members ->
  towardBackend message \/ towardFrontend message.
Proof.
  unfold towardBackend, towardFrontend. cbn.
  intros [H|[H|[H|[H|[]]]]]; rewrite <- H; tauto.
Qed.

Lemma send_cases (message : IpcWebSocketMessage) :
  towardBackend message \/ towardFrontend message \/ send message = ret tt.
Proof.
  unfold towardBackend, towardFrontend, send.
  destruct (Z.eqb_spec (type message) IpcWebSocketMessageType.Send); [tauto|].
  destruct (Z.eqb_spec (type message) IpcWebSocketMessageType.Invoke); [tauto|].
  destruct (Z.eqb_spec (type message) IpcWebSocketMessageType.Push); [tauto|].
  destruct (Z.eqb_spec (type message) IpcWebSocketMessageType.Response); [tauto|].
  right. right. reflexivity.
Qed.

(** [sendToBackend] by how the encoding ends. *)
Lemma sendToBackend_outcome (message : IpcWebSocketMessage) (this : MobileIpcTransport) :
  sendToBackend message this =
  {| completion :=
       Some (Returns (match encodeRequest (ipcRequest this message) with
                      | Returns _ => Returns tt
                      | Throws e => Throws e
                      end));
     after := this;
     events := match encodeRequest (ipcRequest this message) with
               | Returns encoded =>
                   [EncodeRequest (ipcRequest this message); SendToBackend encoded;
                    Dispose (ipcRequest this message)]
               | Throws e => [EncodeRequest (ipcRequest this message)]
               end |}.
Proof.
  unfold sendToBackend, async, bind, this_client, await, attempt, emit.
  cbn [completion after events]. fold (ipcRequest this message).
  destruct (encodeRequest (ipcRequest this message)); reflexivity.
Qed.

(** [sendToFrontend] by how the marshaling ends. *)
Lemma sendToFrontend_outcome (message : IpcWebSocketMessage) (this : MobileIpcTransport) :
  sendToFrontend message this =
  {| completion :=
       Some (Returns (match serialize (asValue message) with
                      | Returns _ => Returns tt
                      | Throws e => Throws e
                      end));
     after := this;
     events := match serialize (asValue message) with
               | Returns wire =>
                   [Serialize (asValue message);
                    SendToFrontend (encodeResponse (ipcFulfillment message wire))]
               | Throws e => [Serialize (asValue message)]
               end |}.
Proof.
  unfold sendToFrontend, async, bind, await, attempt, emit.
  cbn [completion after events].
  destruct (serialize (asValue message)); reflexivity.
Qed.

(** [send] on a message for the backend, by how the encoding ends. *)
Lemma send_backend_outcome (message : IpcWebSocketMessage) (this : MobileIpcTransport) :
  towardBackend message ->
  send message this =
  {| completion := Some (Returns tt); after := this;
     events := match encodeRequest (ipcRequest this message) with
               | Returns encoded =>
                   [EncodeRequest (ipcRequest this message); SendToBackend encoded;
                    Dispose (ipcRequest this message)]
               | Throws e =>
                   [EncodeRequest (ipcRequest this message); UnhandledRejection e]
               end |}.
Proof.
  intros Hdir. rewrite (send_towardBackend Hdir).
  unfold floating, bind. rewrite sendToBackend_outcome. cbn [completion after events].
  destruct (encodeRequest (ipcRequest this message)); reflexivity.
Qed.

(** [send] on a message for the frontend, by how the marshaling ends. *)
Lemma send_frontend_outcome (message : IpcWebSocketMessage) (this : MobileIpcTransport) :
  towardFrontend message ->
  send message this =
  {| completion := Some (Returns tt); after := this;
     events := match serialize (asValue message) with
               | Returns wire =>
                   [Serialize (asValue message);
                    SendToFrontend (encodeResponse (ipcFulfillment message wire))]
               | Throws e => [Serialize (asValue message); UnhandledRejection e]
               end |}.
Proof.
  intros Hdir. rewrite (send_towardFrontend Hdir).
  unfold floating, bind. rewrite sendToFrontend_outcome. cbn [completion after events].
  destruct (serialize (asValue message)); reflexivity.
Qed.

(** C7: [send] routes by the type of the envelope. For Send and Invoke it
    makes a request for the operation "send" of the sentinel interface with
    the envelope as its one argument, has it encoded and hands the encoding
    to the backend; for Push and Response it marshals the envelope, makes
    the fulfillment with that as result, the channel as id, the sentinel as
    interface name and status 0, and hands its encoding to the frontend. *)
Theorem send_routes_by_type (message : IpcWebSocketMessage) (this : MobileIpcTransport) :
  _client this = IpcInterface ->
  (towardBackend message ->
   forall encoded,
     let request := {| requestClient := IpcInterface;
                       requestOperation := "send";
                       requestParameters := [asValue message] |} in
     encodeRequest request = Returns encoded ->
     RpcInterface.interfaceName (requestClient request) = IPC /\
     send message this =
     {| completion := Some (Returns tt); after := this;
        events := [EncodeRequest request; SendToBackend encoded; Dispose request] |}) /\
  (towardFrontend message ->
   forall wire,
     serialize (asValue message) = Returns wire ->
     send message this =
     {| completion := Some (Returns tt); after := this;
        events := [Serialize (asValue message);
                   SendToFrontend
                     (encodeResponse {| result := wire;
                                        rawResult := asValue message;
                                        interfaceName := IPC;
                                        id := channel message;
                                        status := 0 |})] |}).
Proof.
  intros Hclient. split.
  - intros Hdir encoded request Hencoded. split; [reflexivity|].
    rewrite (send_backend_outcome this Hdir).
    unfold ipcRequest. rewrite Hclient. fold request. rewrite Hencoded. reflexivity.
  - intros Hdir wire Hwire.
    rewrite (send_frontend_outcome this Hdir), Hwire. reflexivity.
Qed.

(** C5, as the code has it: when the marshaling of an outbound envelope
    fails, the promise of the asynchronous method that was marshaling it is
    rejected with the error; [send], which does not await that promise,
    returns to its caller as after any other call, and the rejection stays
    unhandled. The marshaling was started once and is not started again,
    nothing is handed to the channel, and the instance is as it was. *)
Theorem send_marshal_failure_is_not_thrown
    (message : IpcWebSocketMessage) (this : MobileIpcTransport) (e : Error) :
  (towardBackend message ->
   encodeRequest (ipcRequest this message) = Throws e ->
   completion (sendToBackend message this) = Some (Returns (Throws e)) /\
   send message this =
   {| completion := Some (Returns tt); after := this;
      events := [EncodeRequest (ipcRequest this message); UnhandledRejection e] |}) /\
  (towardFrontend message ->
   serialize (asValue message) = Throws e ->
   completion (sendToFrontend message this) = Some (Returns (Throws e)) /\
   send message this =
   {| completion := Some (Returns tt); after := this;
      events := [Serialize (asValue message); UnhandledRejection e] |}).
Proof.
  split; intros Hdir Hfails; split.
  - rewrite sendToBackend_outcome, Hfails. reflexivity.
  - rewrite (send_backend_outcome this Hdir), Hfails. reflexivity.
  - rewrite sendToFrontend_outcome, Hfails. reflexivity.
  - rewrite (send_frontend_outcome this Hdir), Hfails. reflexivity.
Qed.

(** *** The round trip *)

Lemma unwraps_ipcFulfillment (message : IpcWebSocketMessage) (response : RpcRequestFulfillment)
    (wire : WireValue) :
  deserialize wire = Returns (asValue message) ->
  interfaceName response = IPC ->
  result response = wire ->
  unwraps (inr response) (asValue message).
Proof.
  intros Hwire Hipc Hresult. cbn [unwraps]. split; [exact Hipc|].
  rewrite Hresult. exact Hwire.
Qed.

(** C1: an envelope of one of the four types is wrapped by [send] and
    handed to the channel, as a request toward the backend for Send and
    Invoke and as a fulfillment toward the frontend for Push and Response,
    and what was handed over, once decoded at the far end and consumed by
    the transport there ([consumeRequest] for the request, [consumeResponse]
    for the fulfillment), is broadcast as the envelope it was, with its
    channel, its type and its payload: every listener that only reads is
    called with it. The marshaling codec round-trips every value and the
    protocol codec is faithful. *)
Theorem wrap_unwrap_round_trip
    (message : IpcWebSocketMessage) (sender receiver : MobileIpcTransport) :
  roundTrips ->
  faithful ->
  In (type message) IpcWebSocketMessageType.members ->
  _client sender = IpcInterface ->
  exists encoded inbound,
    (towardBackend message ->
     events (send message sender) =
     [EncodeRequest (ipcRequest sender message); SendToBackend encoded;
      Dispose (ipcRequest sender message)]) /\
    (towardFrontend message ->
     events (send message sender) =
     [Serialize (asValue message); SendToFrontend encoded]) /\
    decode encoded = Some inbound /\
    (forall fuel,
       consume fuel inbound receiver =
       (broadcast fuel
          (JsObject [ ("channel"%string, JsString (channel message));
                      ("type"%string, JsNumber (type message));
                      ("payload"%string, payload message) ]) ;;
        ret true) receiver) /\
    (forall fuel,
       Forall (onlyReads (asValue message)) (_listeners receiver) ->
       length (_listeners receiver) <= fuel ->
       consume fuel inbound receiver =
       {| completion := Some (Returns true); after := receiver;
          events := map (fun listener => Call listener (asValue message))
                        (_listeners receiver) |}).
Proof.
  intros Hround [Hrequest Hresponse] Hmember Hclient.
  assert (Hone : forall d : Prop, towardBackend message -> towardFrontend message -> d)
    by (unfold towardBackend, towardFrontend;
        intros d [H|H] [H'|H']; rewrite H in H'; discriminate H').
  destruct (members_directions message Hmember) as [Hdir|Hdir].
  - destruct (Hround (JsArray [asValue message])) as (wire & Hwire & Hback).
    destruct (Hrequest (ipcRequest sender message)
                {| operation := {| interfaceDefinition := IPC; operationName := "send" |};
                   parameters := wire |})
      as (encoded & Hencoded & Hdecode).
    { unfold serializeRequest, ipcRequest.
      cbn [requestParameters requestClient requestOperation].
      rewrite Hwire, Hclient. reflexivity. }
    assert (Hunwraps : unwraps (inl {| operation := {| interfaceDefinition := IPC;
                                                          operationName := "send" |};
                                        parameters := wire |}) (asValue message)).
    { cbn [unwraps operation interfaceDefinition parameters]. split; [reflexivity|].
      exists (JsArray [asValue message]). split; [exact Hback|reflexivity]. }
    eexists encoded, _. split; [|split; [|split; [exact Hdecode|split]]].
    + intros _. rewrite (send_backend_outcome sender Hdir), Hencoded. reflexivity.
    + intros Hother. apply (Hone _ Hdir Hother).
    + intros fuel. apply consume_unwraps, Hunwraps.
    + intros fuel Hreads Hfuel. apply consume_readers; assumption.
  - destruct (Hround (asValue message)) as (wire & Hwire & Hback).
    assert (Hunwraps : unwraps (inr (ipcFulfillment message wire)) (asValue message))
      by (apply unwraps_ipcFulfillment with (wire := wire); auto).
    eexists (encodeResponse (ipcFulfillment message wire)), _.
    split; [|split; [|split; [apply Hresponse|split]]].
    + intros Hother. apply (Hone _ Hother Hdir).
    + intros _. rewrite (send_frontend_outcome sender Hdir), Hwire. reflexivity.
    + intros fuel. apply consume_unwraps, Hunwraps.
    + intros fuel Hreads Hfuel. apply consume_readers; assumption.
Qed.

(** C2, as the code has it: a fulfillment with the sentinel as interface
    name whose result is a marshaled envelope (what [sendToFrontend]
    makes) is consumed by unmarshaling its result, whatever its rawResult
    holds, and broadcasting what the unmarshaling returned: the envelope,
    given a codec whose [deserialize] returns the value that was
    serialized and not an array around it. Every listener that only reads
    is called with it. *)
Theorem consumeResponse_broadcasts_result
    (message : IpcWebSocketMessage) (wire : WireValue) (response : RpcRequestFulfillment)
    (this : MobileIpcTransport) (fuel : nat) :
  lossless ->
  serialize (asValue message) = Returns wire ->
  interfaceName response = IPC ->
  result response = wire ->
  consumeResponse fuel response this = (broadcast fuel (asValue message) ;; ret true) this /\
  (Forall (onlyReads (asValue message)) (_listeners this) ->
   length (_listeners this) <= fuel ->
   consumeResponse fuel response this =
   {| completion := Some (Returns true); after := this;
      events := map (fun listener => Call listener (asValue message))
                    (_listeners this) |}).
Proof.
  intros Hlossless Hwire Hipc Hresult.
  assert (Hunwraps : unwraps (inr response) (asValue message))
    by (apply unwraps_ipcFulfillment with (wire := wire); auto).
  change (consumeResponse fuel response this) with (consume fuel (inr response) this).
  split.
  - apply consume_unwraps, Hunwraps.
  - intros Hreads Hfuel. apply consume_readers; assumption.
Qed.

(** *** Listeners that register listeners *)

Lemma nth_error_called (calls : list (Listener * JsValue)) (position : nat)
    (listener : Listener) (received : JsValue) :
  nth_error (map called calls) position = Some (Call listener received) ->
  nth_error calls position = Some (listener, received).
Proof.
  rewrite nth_error_map. destruct (nth_error calls position) as [[l m]|]; cbn.
  - intros H. injection H as -> ->. reflexivity.
  - discriminate.
Qed.

Lemma chained_nth (calls : list (Listener * JsValue)) :
  forall (message : JsValue) (position : nat) (call next : Listener * JsValue),
    chained message calls ->
    nth_error calls position = Some call ->
    nth_error calls (S position) = Some next ->
    snd next = leaves (reacts (fst call) (snd call)).
Proof.
  induction calls as [|first rest IH]; intros message [|position] call next;
    cbn [chained nth_error]; try discriminate.
  - intros [_ Hrest] Hcall Hnext. injection Hcall as <-.
    destruct rest as [|second rest]; [discriminate|].
    cbn in Hnext. injection Hnext as <-. apply Hrest.
  - intros [_ Hrest]. apply IH with (message := leaves (reacts (fst first) (snd first))).
    exact Hrest.
Qed.

(** What a called listener registers sits in the array past the place of
    the call, and stays there. *)
Lemma broadcastFrom_registered (fuel : nat) :
  forall (message : JsValue) (index : nat) (this : MobileIpcTransport)
         (position : nat) (listener registered : Listener) (received : JsValue),
    let o := broadcastFrom fuel index message this in
    nth_error (events o) position = Some (Call listener received) ->
    In registered (reenters listener received) ->
    exists later,
      index + position <= later /\
      nth_error (_listeners (after o)) (S later) = Some registered.
Proof.
  induction fuel as [|fuel IH];
    intros message index this position listener registered received;
    destruct (nth_error (_listeners this) index) as [current|] eqn:Hnth.
  - cbn. rewrite Hnth. cbn. destruct position; discriminate.
  - cbn. rewrite Hnth. cbn. destruct position; discriminate.
  - cbn zeta. rewrite broadcastFrom_step with (listener := current) by assumption.
    cbn zeta.
    pose proof (proj1 (nth_error_Some (_listeners this) index)
                  ltac:(rewrite Hnth; discriminate)) as Hindex.
    assert (Hhere : forall more,
               In registered (reenters current message) ->
               exists later,
                 index + 0 <= later /\
                 nth_error ((_listeners this ++ reenters current message) ++ more) (S later)
                 = Some registered).
    { intros more Hin. apply In_nth_error in Hin as [k Hk].
      exists (length (_listeners this) + k - 1). split; [lia|].
      replace (S (length (_listeners this) + k - 1)) with (length (_listeners this) + k)
        by lia.
      rewrite <- app_assoc, nth_error_app2 by lia.
      replace (length (_listeners this) + k - length (_listeners this)) with k by lia.
      rewrite nth_error_app1; [exact Hk|].
      apply nth_error_Some. rewrite Hk. discriminate. }
    destruct (ends (reacts current message)) as [[]|e].
    + cbn [events after].
      destruct (appendOnly_broadcastFrom fuel (S index) (leaves (reacts current message))
                  (withListeners this (_listeners this ++ reenters current message)))
        as [[more Hmore] _].
      cbn [withListeners _listeners] in Hmore.
      destruct position as [|position]; cbn [nth_error].
      * intros Hcall Hin. injection Hcall as <- <-.
        rewrite Hmore. apply Hhere, Hin.
      * intros Hcall Hin.
        destruct (IH _ _ _ _ _ _ _ Hcall Hin) as (later & Hlater & Hat).
        exists later. split; [lia|exact Hat].
    + cbn [events after withListeners _listeners].
      destruct position as [|[|position]]; cbn [nth_error]; try discriminate.
      intros Hcall Hin. injection Hcall as <- <-.
      specialize (Hhere [] Hin). rewrite app_nil_r in Hhere. exact Hhere.
  - cbn zeta. rewrite broadcastFrom_done by (apply nth_error_None; assumption).
    cbn. destruct position; discriminate.
Qed.

(** C8, as the code has it: the loop of [broadcast] walks the listener
    array itself, not a copy. A listener that is registered by a listener
    during the dispatch is appended to that array, past the place of the
    listener that registered it, and stays registered afterwards. The loop
    goes on to it: when [broadcast] returns, the registered listener has
    been called as well, in its place in the array, with the message as the
    call before its own left it; the loop calls nobody else in that place.
    (The loop stops short of it only by a listener throwing, or by not
    ending at all.) *)
Theorem broadcast_reaches_listeners_registered_during_dispatch
    (fuel : nat) (message : JsValue) (this : MobileIpcTransport)
    (position : nat) (listener registered : Listener) (received : JsValue) :
  let o := broadcast fuel message this in
  nth_error (events o) position = Some (Call listener received) ->
  In registered (reenters listener received) ->
  exists later,
    position <= later /\
    nth_error (_listeners (after o)) (S later) = Some registered /\
    (forall event,
       nth_error (events o) (S later) = Some event ->
       exists message', event = Call registered message') /\
    (completion o = Some (Returns tt) ->
     exists previous left,
       nth_error (events o) later = Some (Call previous left) /\
       nth_error (events o) (S later) =
       Some (Call registered (leaves (reacts previous left)))).
Proof.
  cbn zeta. unfold broadcast. intros Hcall Hin.
  destruct (@broadcastFrom_registered fuel message 0 this position listener registered
              received Hcall Hin)
    as (later & Hlater & Hat).
  destruct (broadcastFrom_trace fuel message 0 this)
    as (calls & pending & Hevents & Hchained & Hskip & _ & Hend).
  cbn [skipn] in Hskip.
  exists later. split; [exact Hlater|]. split; [exact Hat|]. split.
  - intros event Hevent. rewrite Hevents, nth_error_map in Hevent.
    destruct (nth_error calls (S later)) as [[l m]|] eqn:Hnext; [|discriminate].
    injection Hevent as <-. exists m.
    assert (Hl : nth_error (map fst calls ++ pending) (S later) = Some l).
    { rewrite nth_error_app1.
      - rewrite nth_error_map, Hnext. reflexivity.
      - rewrite length_map. apply nth_error_Some. rewrite Hnext. discriminate. }
    rewrite <- Hskip, Hat in Hl. injection Hl as ->. reflexivity.
  - intros Hreturns.
    destruct Hend as [(_ & -> & _)|[(e & before & last & Hthrows & _)|(Hnone & _)]];
      [|rewrite Hreturns in Hthrows; discriminate Hthrows
       |rewrite Hreturns in Hnone; discriminate Hnone].
    rewrite app_nil_r in Hskip. rewrite Hskip, nth_error_map in Hat.
    destruct (nth_error calls (S later)) as [[l m]|] eqn:Hnext; [|discriminate].
    cbn in Hat. injection Hat as ->.
    destruct (nth_error calls later) as [[previous left]|] eqn:Hprevious.
    + exists previous, left. rewrite Hevents, !nth_error_map, Hprevious, Hnext.
      cbn [option_map called fst snd]. split; [reflexivity|].
      pose proof (@chained_nth calls message later _ _ Hchained Hprevious Hnext) as Hleft.
      cbn [fst snd] in Hleft. rewrite Hleft. reflexivity.
    + apply nth_error_None in Hprevious.
      assert (S later < length calls)
        by (apply nth_error_Some; rewrite Hnext; discriminate).
      lia.
Qed.

End Properties.


(** ** The scenario of 8.6, and the codecs at work *)

Lemma identityMarshaling_lossless : @lossless identityMarshaling.
Proof. intros value wire H. injection H as <-. reflexivity. Qed.

Lemma identityMarshaling_roundTrips : @roundTrips identityMarshaling.
Proof. intros value. exists value. split; reflexivity. Qed.

Lemma loopbackProtocol_faithful (marshaling : RpcMarshaling) :
  @faithful marshaling (loopbackProtocol marshaling).
Proof.
  split.
  - intros request serialized Hserialized. exists (inl serialized).
    cbn [encodeRequest loopbackProtocol decode]. rewrite Hserialized.
    split; reflexivity.
  - reflexivity.
Qed.

Lemma arrayMarshaling_returns_arrays :
  forall wire value,
    @deserialize arrayMarshaling wire = Returns value ->
    exists elements, value = JsArray elements.
Proof. intros wire value H. injection H as <-. eexists; reflexivity. Qed.

Section Scenario.
#[local] Existing Instance identityMarshaling.
#[local] Existing Instance loopbackProtocol.
#[local] Existing Instance numberedListeners.

Example send_ping :
  send ping constructor =
  {| completion := Some (Returns tt); after := constructor;
     events := [EncodeRequest {| requestClient := IpcInterface;
                                 requestOperation := "send";
                                 requestParameters := [asValue ping] |};
                SendToBackend (inl pingRequest);
                Dispose {| requestClient := IpcInterface;
                           requestOperation := "send";
                           requestParameters := [asValue ping] |}] |}.
Proof. reflexivity. Qed.

Example consume_ping :
  consumeRequest 3 pingRequest threeListeners =
  {| completion := Some (Returns true); after := threeListeners;
     events := [Call 1 (asValue ping); Call 2 (asValue ping); Call 3 (asValue ping)] |}.
Proof. reflexivity. Qed.

Example send_pong :
  send pong constructor =
  {| completion := Some (Returns tt); after := constructor;
     events := [Serialize (asValue pong); SendToFrontend (inr pongFulfillment)] |}.
Proof. reflexivity. Qed.

Example consume_pong :
  consumeResponse 3 pongFulfillment threeListeners =
  {| completion := Some (Returns true); after := threeListeners;
     events := [Call 1 (asValue pong); Call 2 (asValue pong); Call 3 (asValue pong)] |}.
Proof. reflexivity. Qed.

Example consume_runs_out_of_fuel :
  completion (consumeRequest 2 pingRequest threeListeners) = None.
Proof. reflexivity. Qed.

(** A listener that throws ends the loop: the listeners after it are not
    called, and the consuming call throws what the listener threw. *)
Example consume_with_a_throwing_listener :
  consumeRequest 3 pingRequest
    (@Build_MobileIpcTransport numberedListeners [1; 9; 2] IpcInterface) =
  {| completion := Some (Throws (TypeError "listener 9 failed"));
     after := @Build_MobileIpcTransport numberedListeners [1; 9; 2] IpcInterface;
     events := [Call 1 (asValue ping); Call 9 (asValue ping)] |}.
Proof. reflexivity. Qed.

Lemma consumeRequest_declines_other_interfaces_witness :
  interfaceDefinition (operation readRequest) <> IPC /\
  consumeRequest 3 readRequest threeListeners =
  {| completion := Some (Returns false); after := threeListeners; events := [] |}.
Proof.
  assert (H : interfaceDefinition (operation readRequest) <> IPC) by discriminate.
  split; [exact H|].
  apply (consumeRequest_declines_other_interfaces 3 readRequest threeListeners H).
Defined.

Lemma send_drops_unknown_type_witness :
  let stray := {| channel := "ui-sync"; type := 7; payload := JsNull |} in
  ~ In (type stray) IpcWebSocketMessageType.members /\
  send stray threeListeners =
  {| completion := Some (Returns tt); after := threeListeners; events := [] |}.
Proof.
  intros stray.
  assert (H : ~ In (type stray) IpcWebSocketMessageType.members).
  { cbn. intros [H|[H|[H|[H|[]]]]]; discriminate H. }
  split; [exact H|].
  apply (send_drops_unknown_type stray threeListeners H).
Defined.

Lemma broadcast_fan_out_witness :
  let registered := after (listenAll (code := numberedListeners) [1; 2; 3] constructor) in
  let o := consume 3 (inl pingRequest) registered in
  completion o = Some (Returns true) /\
  events o = map (fun listener => Call listener (asValue ping)) [1; 2; 3] /\
  length (events o) = 3 /\
  after o = registered.
Proof.
  apply (@broadcast_fan_out identityMarshaling (loopbackProtocol identityMarshaling)
           numberedListeners 3 [1; 2; 3] (asValue ping)
           (inl pingRequest) 3).
  - reflexivity.
  - cbn. split; [reflexivity|]. eexists. split; reflexivity.
  - repeat constructor.
  - lia.
Defined.

(** C4 as the spec words it fails, in each of its three parts. With
    listeners 9 and 1 registered, listener 9 throws and the envelope is
    delivered once, not twice. With listener 7 registered alone, which
    registers listener 8 while it handles the envelope, the envelope is
    delivered twice, not once. With listeners 5 and 1 registered, listener
    5 writes to the envelope, and what listener 1 is handed is not what
    arrived. *)
Lemma broadcast_fan_out_counterexample :
  let throwing := after (listenAll (code := numberedListeners) [9; 1] constructor) in
  let registering := after (listenAll (code := numberedListeners) [7] constructor) in
  let writing := after (listenAll (code := numberedListeners) [5; 1] constructor) in
  (length (_listeners throwing) = 2 /\
   consumeRequest 2 pingRequest throwing =
   {| completion := Some (Throws (TypeError "listener 9 failed"));
      after := throwing;
      events := [Call 9 (asValue ping)] |}) /\
  (length (_listeners registering) = 1 /\
   completion (consumeRequest 2 pingRequest registering) = Some (Returns true) /\
   events (consumeRequest 2 pingRequest registering) =
   [Call 7 (asValue ping); Call 8 (asValue ping)]) /\
  (length (_listeners writing) = 2 /\
   completion (consumeRequest 2 pingRequest writing) = Some (Returns true) /\
   events (consumeRequest 2 pingRequest writing) =
   [Call 5 (asValue ping); Call 1 (seen (asValue ping))] /\
   seen (asValue ping) <> asValue ping).
Proof.
  cbn zeta. split; [split; reflexivity|]. split; [repeat split|].
  split; [reflexivity|]. split; [reflexivity|]. split; [reflexivity|].
  cbn. intros H. discriminate H.
Qed.

Lemma malformed_inbound_is_isolated_witness :
  let failed := consume 3 (inl brokenRequest) threeListeners in
  completion failed =
    Some (Throws (TypeError "Cannot read properties of undefined (reading '0')")) /\
  events failed = [] /\
  after failed = threeListeners /\
  consume 3 (inr pongFulfillment) (after failed) =
  (broadcast 3 (asValue pong) ;; ret true) threeListeners /\
  (Forall (onlyReads (asValue pong)) (_listeners threeListeners) ->
   length (_listeners threeListeners) <= 3 ->
   consume 3 (inr pongFulfillment) (after failed) =
   {| completion := Some (Returns true); after := threeListeners;
      events := map (fun listener => Call listener (asValue pong))
                    (_listeners threeListeners) |}).
Proof.
  apply (@malformed_inbound_is_isolated identityMarshaling (loopbackProtocol identityMarshaling)
           numberedListeners 3 (inl brokenRequest) _
           threeListeners
           3 (inr pongFulfillment) (asValue pong)).
  - cbn. split; [reflexivity|]. right. eexists. split; reflexivity.
  - cbn. split; reflexivity.
Defined.

(** C6 as the spec words it fails, in its last part. The malformed request
    leaves the instance as it was, with listeners 9 and 1; the fulfillment
    that follows is deserialized and broadcast, but listener 9 throws: the
    consuming call throws what it threw, and listener 1 is not called. *)
Lemma malformed_inbound_is_isolated_counterexample :
  let this := @Build_MobileIpcTransport numberedListeners [9; 1] IpcInterface in
  let failed := consume 2 (inl brokenRequest) this in
  let next := consume 2 (inr pongFulfillment) (after failed) in
  completion failed =
    Some (Throws (TypeError "Cannot read properties of undefined (reading '0')")) /\
  events failed = [] /\
  after failed = this /\
  unwraps (inr pongFulfillment) (asValue pong) /\
  completion next = Some (Throws (TypeError "listener 9 failed")) /\
  events next = [Call 9 (asValue pong)] /\
  forall received, ~ In (Call 1 received) (events next).
Proof.
  cbn zeta. split; [reflexivity|]. split; [reflexivity|]. split; [reflexivity|].
  split; [split; reflexivity|]. split; [reflexivity|]. split; [reflexivity|].
  intros received [H|[]]. discriminate H.
Qed.

Lemma send_routes_by_type_witness :
  send ping constructor =
  {| completion := Some (Returns tt); after := constructor;
     events := [EncodeRequest {| requestClient := IpcInterface;
                                 requestOperation := "send";
                                 requestParameters := [asValue ping] |};
                SendToBackend (inl pingRequest);
                Dispose {| requestClient := IpcInterface;
                           requestOperation := "send";
                           requestParameters := [asValue ping] |}] |} /\
  send pong constructor =
  {| completion := Some (Returns tt); after := constructor;
     events := [Serialize (asValue pong);
                SendToFrontend (encodeResponse pongFulfillment)] |}.
Proof.
  destruct (@send_routes_by_type identityMarshaling (loopbackProtocol identityMarshaling)
           numberedListeners ping constructor eq_refl)
    as [Hbackend _].
  destruct (@send_routes_by_type identityMarshaling (loopbackProtocol identityMarshaling)
           numberedListeners pong constructor eq_refl)
    as [_ Hfrontend].
  split.
  - apply (Hbackend (or_intror eq_refl) (inl pingRequest) eq_refl).
  - apply (Hfrontend (or_intror eq_refl) (asValue pong) eq_refl).
Defined.

Lemma wrap_unwrap_round_trip_witness :
  exists encoded inbound,
    (towardBackend ping ->
     events (send ping constructor) =
     [EncodeRequest (ipcRequest constructor ping); SendToBackend encoded;
      Dispose (ipcRequest constructor ping)]) /\
    (towardFrontend ping ->
     events (send ping constructor) =
     [Serialize (asValue ping); SendToFrontend encoded]) /\
    decode encoded = Some inbound /\
    (forall fuel,
       consume fuel inbound threeListeners =
       (broadcast fuel
          (JsObject [ ("channel"%string, JsString "ui-sync");
                      ("type"%string, JsNumber IpcWebSocketMessageType.Invoke);
                      ("payload"%string, JsObject [("cmd"%string, JsString "ping")]) ]) ;;
        ret true) threeListeners) /\
    (forall fuel,
       Forall (onlyReads (asValue ping)) (_listeners threeListeners) ->
       length (_listeners threeListeners) <= fuel ->
       consume fuel inbound threeListeners =
       {| completion := Some (Returns true); after := threeListeners;
          events := map (fun listener => Call listener (asValue ping))
                        (_listeners threeListeners) |}).
Proof.
  apply (@wrap_unwrap_round_trip identityMarshaling (loopbackProtocol identityMarshaling)
           numberedListeners ping constructor threeListeners).
  - exact identityMarshaling_roundTrips.
  - apply loopbackProtocol_faithful.
  - cbn. tauto.
  - reflexivity.
Defined.

Lemma consumeResponse_broadcasts_result_witness :
  consumeResponse 3 pongFulfillment threeListeners =
  (broadcast 3 (asValue pong) ;; ret true) threeListeners /\
  (Forall (onlyReads (asValue pong)) (_listeners threeListeners) ->
   length (_listeners threeListeners) <= 3 ->
   consumeResponse 3 pongFulfillment threeListeners =
   {| completion := Some (Returns true); after := threeListeners;
      events := map (fun listener => Call listener (asValue pong))
                    (_listeners threeListeners) |}).
Proof.
  apply (@consumeResponse_broadcasts_result identityMarshaling (loopbackProtocol identityMarshaling)
           numberedListeners pong (asValue pong)
           pongFulfillment
           threeListeners 3).
  - exact identityMarshaling_lossless.
  - reflexivity.
  - reflexivity.
  - reflexivity.
Defined.

(** Listener 7, second of three, registers listener 8 while it handles a
    message: listener 8 is appended to the array, in its fourth place, and
    is called with that very message, after listener 2. *)
Lemma broadcast_reaches_listeners_registered_during_dispatch_witness :
  let o := broadcast 4 (asValue ping)
             (@Build_MobileIpcTransport numberedListeners [1; 7; 2] IpcInterface) in
  exists later,
    1 <= later /\
    nth_error (_listeners (after o)) (S later) = Some 8 /\
    (forall event,
       nth_error (events o) (S later) = Some event ->
       exists message', event = Call 8 message') /\
    (completion o = Some (Returns tt) ->
     exists previous left,
       nth_error (events o) later = Some (Call previous left) /\
       nth_error (events o) (S later) =
       Some (Call 8 (leaves (reacts previous left)))).
Proof.
  apply (@broadcast_reaches_listeners_registered_during_dispatch identityMarshaling
           (loopbackProtocol identityMarshaling) numberedListeners
           4 (asValue ping)
           (@Build_MobileIpcTransport numberedListeners [1; 7; 2] IpcInterface)
           1 7 8 (asValue ping)).
  - reflexivity.
  - cbn. left. reflexivity.
Defined.

Example broadcast_with_a_registering_listener :
  broadcast 4 (asValue ping)
    (@Build_MobileIpcTransport numberedListeners [1; 7; 2] IpcInterface) =
  {| completion := Some (Returns tt);
     after := @Build_MobileIpcTransport numberedListeners [1; 7; 2; 8] IpcInterface;
     events := [Call 1 (asValue ping); Call 7 (asValue ping); Call 2 (asValue ping);
                Call 8 (asValue ping)] |}.
Proof. reflexivity. Qed.

(** C8 as the spec words it fails: listener 8 is not registered when the
    request arrives, listener 7 registers it while handling the request,
    and listener 8 is called with that request's envelope all the same. *)
Lemma listener_registered_during_dispatch_counterexample :
  let before := after (listen (code := numberedListeners) 7 constructor) in
  let o := consumeRequest 3 pingRequest before in
  ~ In 8 (_listeners before) /\
  reenters 7 (asValue ping) = [8] /\
  completion o = Some (Returns true) /\
  _listeners (after o) = [7; 8] /\
  events o = [Call 7 (asValue ping); Call 8 (asValue ping)] /\
  In (Call 8 (asValue ping)) (events o).
Proof.
  cbn. repeat split.
  - intros [H|[]]. discriminate H.
  - right. left. reflexivity.
Qed.

End Scenario.

(** C2 as the spec words it fails: with a codec whose [deserialize] returns
    an array of values, as the contract of 4.4 says, what the listeners are
    handed for the fulfillment of [pong] is that array and not [pong]. *)
Lemma consumeResponse_array_contract_counterexample :
  let response :=
    @ipcFulfillment arrayMarshaling pong (asValue pong) in
  let this :=
    @Build_MobileIpcTransport numberedListeners [1] IpcInterface in
  let o :=
    @consumeResponse arrayMarshaling (loopbackProtocol arrayMarshaling) numberedListeners
      1 response this in
  (forall wire value,
     @deserialize arrayMarshaling wire = Returns value ->
     exists elements, value = JsArray elements) /\
  @serialize arrayMarshaling (asValue pong) = Returns (result response) /\
  interfaceName response = IPC /\
  events o = [Call (1 : @Listener numberedListeners) (JsArray [asValue pong])] /\
  events o <> [Call (1 : @Listener numberedListeners) (asValue pong)].
Proof.
  cbn zeta. split; [exact arrayMarshaling_returns_arrays|].
  split; [reflexivity|]. split; [reflexivity|]. split; [reflexivity|].
  cbn. intros H. discriminate H.
Qed.

(** C5 as the spec words it fails: with a codec that cannot marshal, [send]
    returns to its caller without an error, for an envelope bound for the
    backend as for one bound for the frontend. *)
Lemma send_marshal_failure_counterexample :
  let failing := SerializationError "cannot marshal" in
  let this := @constructor numberedListeners in
  let toBackend :=
    @send failingMarshaling (loopbackProtocol failingMarshaling) numberedListeners ping this in
  let toFrontend :=
    @send failingMarshaling (loopbackProtocol failingMarshaling) numberedListeners pong this in
  @encodeRequest failingMarshaling (loopbackProtocol failingMarshaling)
    (ipcRequest this ping) = Throws failing /\
  @serialize failingMarshaling (asValue pong) = Throws failing /\
  completion toBackend = Some (Returns tt) /\
  completion toBackend <> Some (Throws failing) /\
  completion toFrontend = Some (Returns tt) /\
  completion toFrontend <> Some (Throws failing).
Proof.
  cbn. repeat split; intros H; discriminate H.
Qed.

Lemma send_marshal_failure_is_not_thrown_witness :
  let failing := SerializationError "cannot marshal" in
  let this := @constructor numberedListeners in
  (completion
     (@sendToBackend failingMarshaling (loopbackProtocol failingMarshaling)
        numberedListeners ping this) = Some (Returns (Throws failing)) /\
   @send failingMarshaling (loopbackProtocol failingMarshaling) numberedListeners ping this =
   {| completion := Some (Returns tt); after := this;
      events := [EncodeRequest (ipcRequest this ping); UnhandledRejection failing] |}) /\
  (completion
     (@sendToFrontend failingMarshaling (loopbackProtocol failingMarshaling)
        numberedListeners pong this) = Some (Returns (Throws failing)) /\
   @send failingMarshaling (loopbackProtocol failingMarshaling) numberedListeners pong this =
   {| completion := Some (Returns tt); after := this;
      events := [Serialize (asValue pong); UnhandledRejection failing] |}).
Proof.
  intros failing this. split.
  - apply (proj1 (@send_marshal_failure_is_not_thrown failingMarshaling
                    (loopbackProtocol failingMarshaling) numberedListeners ping this failing)).
    + right. reflexivity.
    + reflexivity.
  - apply (proj2 (@send_marshal_failure_is_not_thrown failingMarshaling
                    (loopbackProtocol failingMarshaling) numberedListeners pong this failing)).
    + right. reflexivity.
    + reflexivity.
Defined.

(** ** PerfReporter: properties *)

Section StringFacts.

Lemma append_empty_r (s : string) : (s ++ "")%string = s.
Proof. induction s as [|c s IH]; cbn; [reflexivity|rewrite IH; reflexivity]. Qed.

Lemma append_assoc (a b c : string) : ((a ++ b) ++ c)%string = (a ++ (b ++ c))%string.
Proof. induction a as [|x a IH]; cbn; [reflexivity|rewrite IH; reflexivity]. Qed.

Lemma length_append (a b : string) :
  String.length (a ++ b) = String.length a + String.length b.
Proof. induction a as [|x a IH]; cbn; [reflexivity|rewrite IH; reflexivity]. Qed.

Lemma substring_whole (s : string) : substring 0 (String.length s) s = s.
Proof. induction s as [|c s IH]; cbn; [reflexivity|rewrite IH; reflexivity]. Qed.

Lemma substring_after (a b : string) :
  substring (String.length a) (String.length b) (a ++ b) = b.
Proof. induction a as [|x a IH]; cbn; [apply substring_whole|exact IH]. Qed.

Lemma endsWith_append (s suffix : string) :
  PerfReporter.endsWith (s ++ suffix) suffix = true.
Proof.
  unfold PerfReporter.endsWith. rewrite length_append.
  replace (String.length s + String.length suffix - String.length suffix)
    with (String.length s) by lia.
  rewrite substring_after, String.eqb_refl, andb_true_r.
  apply Nat.leb_le. lia.
Qed.

Lemma splitAt_nonempty (separator : ascii) (s : string) :
  PerfReporter.splitAt separator s <> [].
Proof.
  destruct s as [|c s]; cbn; [discriminate|].
  destruct (Ascii.eqb c separator); [discriminate|].
  destruct (PerfReporter.splitAt separator s); discriminate.
Qed.

Lemma splitAt_length (separator : ascii) (s : string) :
  length (PerfReporter.splitAt separator s) = S (PerfReporter.occurrences separator s).
Proof.
  induction s as [|c s IH]; cbn; [reflexivity|].
  destruct (Ascii.eqb c separator); cbn; [rewrite IH; reflexivity|].
  destruct (PerfReporter.splitAt separator s) eqn:E; cbn in *; [discriminate IH|exact IH].
Qed.

Lemma occurrences_append (separator : ascii) (a b : string) :
  PerfReporter.occurrences separator (a ++ b) =
  PerfReporter.occurrences separator a + PerfReporter.occurrences separator b.
Proof. induction a as [|x a IH]; cbn; [reflexivity|rewrite IH; lia]. Qed.

(** A piece without the separator, then the separator: the piece is the
    first of the pieces. *)
Lemma splitAt_first (separator : ascii) (piece rest : string) :
  PerfReporter.occurrences separator piece = 0 ->
  PerfReporter.splitAt separator (piece ++ String separator rest) =
  piece :: PerfReporter.splitAt separator rest.
Proof.
  induction piece as [|c piece IH]; cbn [PerfReporter.occurrences append PerfReporter.splitAt].
  - intros _. rewrite Ascii.eqb_refl. reflexivity.
  - destruct (Ascii.eqb c separator); [discriminate|]. cbn [Nat.add].
    intros Hnone. rewrite (IH Hnone). reflexivity.
Qed.

End StringFacts.

Section ReporterProperties.
Import PerfReporter.
Context {interpolation : Interpolation} {volume : Volume}.

Lemma concat_lines (first : string) (rest : list string) :
  String.concat "" (first :: rest) = (first ++ String.concat "" rest)%string.
Proof. destruct rest; cbn; [rewrite append_empty_r|]; reflexivity. Qed.

Lemma fold_left_lines (entries : list Entry) (report : string) :
  fold_left (fun report entry => (report ++ line entry)%string) entries report =
  (report ++ String.concat "" (map line entries))%string.
Proof.
  revert report; induction entries as [|entry entries IH]; intros report.
  - cbn. rewrite append_empty_r. reflexivity.
  - cbn [fold_left map]. rewrite IH, concat_lines, append_assoc. reflexivity.
Qed.

Lemma lines_addEntry (suite name valueName : string) (value : Number) (info : JsValue)
    (this : t) :
  lines (addEntry suite name valueName value info this) =
  (lines this
   ++ line {| testSuite := suite; testName := name; valueName := valueName;
              value := value; info := info |})%string.
Proof.
  unfold lines, addEntry. cbn [_entries]. rewrite map_app. cbn [map].
  induction (map line (_entries this)) as [|l ls IH].
  - cbn. reflexivity.
  - cbn [app]. rewrite !concat_lines, IH, append_assoc. reflexivity.
Qed.

Lemma exportCSV_unfold (fileName : string) (this : t) (fs : FileSystem) :
  exportCSV fileName this fs =
  appendFileSync (csvName fileName)
    ((if existsSync fs (csvName fileName) then "" else header) ++ lines this)%string
    fs.
Proof.
  unfold exportCSV, csvName, lines. rewrite fold_left_lines.
  destruct (endsWith fileName ".csv"); cbn [negb];
    match goal with |- context [existsSync fs ?n] => destruct (existsSync fs n) end;
    reflexivity.
Qed.

Lemma csvName_endsWith (fileName : string) : endsWith (csvName fileName) ".csv" = true.
Proof.
  unfold csvName. destruct (endsWith fileName ".csv") eqn:E; [exact E|].
  apply endsWith_append.
Qed.

(** What becomes of the file [exportCSV] writes to, and what the call
    throws. *)
Lemma exportCSV_outcome (fileName : string) (this : t) (fs : FileSystem) :
  raised (exportCSV fileName this fs) =
    match fs (csvName fileName) with
    | Some _ => None
    | None => obstacle (csvName fileName)
    end /\
  disk (exportCSV fileName this fs) (csvName fileName) =
    match fs (csvName fileName) with
    | Some contents => Some (contents ++ lines this)%string
    | None =>
        match obstacle (csvName fileName) with
        | Some _ => None
        | None => Some (header ++ lines this)%string
        end
    end.
Proof.
  rewrite exportCSV_unfold. unfold appendFileSync, existsSync.
  destruct (fs (csvName fileName)) as [contents|] eqn:Hfile; cbn [raised disk].
  - rewrite String.eqb_refl. split; reflexivity.
  - destruct (obstacle (csvName fileName)) as [[]|]; cbn [raised disk];
      rewrite ?String.eqb_refl, ?Hfile; split; reflexivity.
Qed.

Lemma exportCSV_elsewhere (fileName : string) (this : t) (fs : FileSystem) (path : string) :
  path <> csvName fileName ->
  disk (exportCSV fileName this fs) path = fs path.
Proof.
  intros Hother. rewrite exportCSV_unfold. unfold appendFileSync.
  apply String.eqb_neq in Hother.
  destruct (fs (csvName fileName)); [|destruct (obstacle (csvName fileName))];
    cbn [disk]; rewrite ?Hother; reflexivity.
Qed.

(** X11: the one file [exportCSV] writes to is the file of the name it
    was given, with ".csv" added to it unless it ends in ".csv" already:
    a file whose contents differ after the call has that name, which ends
    in ".csv"; unless the call throws, there is a file of that name after
    it; and so asking for "report" and asking for "report.csv" do the same
    thing. *)
Theorem exportCSV_names_the_csv_file (fileName : string) (this : t) (fs : FileSystem) :
  (forall path,
     disk (exportCSV fileName this fs) path <> fs path ->
     path = (if endsWith fileName ".csv" then fileName else fileName ++ ".csv")%string /\
     endsWith path ".csv" = true) /\
  (raised (exportCSV fileName this fs) = None ->
   exists contents,
     disk (exportCSV fileName this fs)
       (if endsWith fileName ".csv" then fileName else fileName ++ ".csv")%string
     = Some contents) /\
  (endsWith fileName ".csv" = false ->
   exportCSV (fileName ++ ".csv") this fs = exportCSV fileName this fs).
Proof.
  fold (csvName fileName). split; [|split].
  - intros path Hchanged.
    destruct (string_dec path (csvName fileName)) as [->|Hother].
    + split; [reflexivity|apply csvName_endsWith].
    + exfalso. apply Hchanged, exportCSV_elsewhere, Hother.
  - destruct (exportCSV_outcome fileName this fs) as [-> ->].
    destruct (fs (csvName fileName)) as [contents|]; [eexists; reflexivity|].
    destruct (obstacle (csvName fileName)); [discriminate|eexists; reflexivity].
  - intros Hbare. rewrite !exportCSV_unfold.
    assert (Hname : csvName fileName = (fileName ++ ".csv")%string)
      by (unfold csvName; rewrite Hbare; reflexivity).
    assert (Hfull : csvName (fileName ++ ".csv") = (fileName ++ ".csv")%string)
      by (unfold csvName; rewrite endsWith_append; reflexivity).
    rewrite Hname, Hfull. reflexivity.
Qed.

(** X12: [exportCSV] leaves every file but the one it writes to as it
    was. *)
Theorem exportCSV_touches_one_file
    (fileName : string) (this : t) (fs : FileSystem) (path : string) :
  path <> csvName fileName ->
  disk (exportCSV fileName this fs) path = fs path.
Proof. apply exportCSV_elsewhere. Qed.

(** X13: [exportCSV] appends. A file that exists keeps its contents and
    gets the lines of the entries, in the order the entries were added,
    after them, with no header. Where there is no file, one is created
    with the header and then the lines, unless none can be made there,
    the directory being missing or the path being that of a directory:
    then the call throws what [fs.appendFileSync] throws, and no file is
    created. *)
Theorem exportCSV_appends (fileName : string) (this : t) (fs : FileSystem) :
  raised (exportCSV fileName this fs) =
    match fs (csvName fileName) with
    | Some _ => None
    | None => obstacle (csvName fileName)
    end /\
  disk (exportCSV fileName this fs) (csvName fileName) =
    match fs (csvName fileName) with
    | Some contents => Some (contents ++ lines this)%string
    | None =>
        match obstacle (csvName fileName) with
        | Some _ => None
        | None => Some (header ++ lines this)%string
        end
    end.
Proof. apply exportCSV_outcome. Qed.

(** X14: the entries stay in the reporter after an export, and the header
    is written once per file: two exports to a file that did not exist,
    in a place where it can be made, throw nothing and leave the header,
    the lines of the first export and the lines of the second; exporting
    the same reporter twice writes its lines twice. *)
Theorem exportCSV_twice (fileName : string) (first second : t) (fs : FileSystem) :
  fs (csvName fileName) = None ->
  obstacle (csvName fileName) = None ->
  let once := exportCSV fileName first fs in
  let twice := exportCSV fileName second (disk once) in
  raised once = None /\
  raised twice = None /\
  disk twice (csvName fileName) = Some (header ++ lines first ++ lines second)%string.
Proof.
  intros Hnew Hfree once twice. subst once twice.
  destruct (exportCSV_outcome fileName first fs) as [Hraised Hdisk].
  rewrite Hnew, Hfree in Hraised, Hdisk.
  destruct (exportCSV_outcome fileName second (disk (exportCSV fileName first fs)))
    as [Hraised' Hdisk'].
  rewrite Hdisk in Hraised', Hdisk'.
  split; [exact Hraised|]. split; [exact Hraised'|].
  rewrite Hdisk', append_assoc. reflexivity.
Qed.

(** X15: nothing is quoted or escaped: a line has five columns and one
    more for every comma inside a field, so a reader that splits at the
    commas finds five columns exactly when no field holds a comma. *)
Theorem line_columns (entry : Entry) :
  length (splitAt "," (line entry)) =
  5 + occurrences "," (testName entry) + occurrences "," (testSuite entry)
    + occurrences "," (valueName entry) + occurrences "," (ofNumber (value entry))
    + occurrences "," (ofAny (info entry)).
Proof.
  rewrite splitAt_length. unfold line.
  rewrite !occurrences_append. cbn. lia.
Qed.

(** X16: the columns of a line are not in the order of the header: under
    "Test Suite", the first column of the header, a line carries the name
    of the test, and under "Test Name", the second, the name of the
    suite. *)
Theorem line_swaps_suite_and_name (entry : Entry) :
  occurrences "," (testName entry) = 0 ->
  occurrences "," (testSuite entry) = 0 ->
  nth 0 (splitAt "," header) EmptyString = "Test Suite"%string /\
  nth 0 (splitAt "," (line entry)) EmptyString = testName entry /\
  nth 1 (splitAt "," header) EmptyString = "Test Name"%string /\
  nth 1 (splitAt "," (line entry)) EmptyString = testSuite entry.
Proof.
  intros Hname Hsuite. unfold line. cbn [append].
  split; [reflexivity|]. split; [|split; [reflexivity|]].
  - rewrite splitAt_first by exact Hname. reflexivity.
  - rewrite splitAt_first by exact Hname. rewrite splitAt_first by exact Hsuite.
    reflexivity.
Qed.

(** X17: entries are written in the order they were added: after one more
    [addEntry], an export writes what it would have written before and
    then the line of the new entry. *)
Theorem addEntry_then_exportCSV
    (suite name valueName : string) (value : Number) (info : JsValue)
    (fileName : string) (this : t) (fs : FileSystem) :
  disk (exportCSV fileName (addEntry suite name valueName value info this) fs)
    (csvName fileName) =
  match disk (exportCSV fileName this fs) (csvName fileName) with
  | Some written =>
      Some (written ++ line {| testSuite := suite; testName := name;
                               valueName := valueName; value := value; info := info |})%string
  | None => None
  end.
Proof.
  destruct (exportCSV_outcome fileName
              (addEntry suite name valueName value info this) fs) as [_ ->].
  destruct (exportCSV_outcome fileName this fs) as [_ ->].
  rewrite lines_addEntry.
  destruct (fs (csvName fileName)); [|destruct (obstacle (csvName fileName))];
    rewrite <- ?append_assoc; reflexivity.
Qed.

End ReporterProperties.

(** ** MobileIpcTransport: further properties *)

Section TransportProperties.
Context {marshaling : RpcMarshaling} {protocol : MobileRpcProtocol} {code : ListenerCode}.

(** X1: [consumeResponse] declines a fulfillment of another interface: it
    returns false, calls no listener and leaves the instance as it was. *)
Theorem consumeResponse_declines_other_interfaces
    (fuel : nat) (response : RpcRequestFulfillment) (this : MobileIpcTransport) :
  interfaceName response <> IPC ->
  consumeResponse fuel response this =
  {| completion := Some (Returns false); after := this; events := [] |}.
Proof.
  intros Hother. unfold consumeResponse. rewrite (not_sentinel Hother). reflexivity.
Qed.

Lemma directions_exclusive (message : IpcWebSocketMessage) :
  towardBackend message -> towardFrontend message -> False.
Proof.
  unfold towardBackend, towardFrontend. intros [H|H] [H'|H']; rewrite H in H'; discriminate H'.
Qed.

(** X2: [send] is fire and forget: whatever the message and whatever becomes
    of the marshaling, the call returns normally, the instance is as it
    was, and no listener of this instance has been called. *)
Theorem send_returns_and_keeps_instance
    (message : IpcWebSocketMessage) (this : MobileIpcTransport) :
  completion (send message this) = Some (Returns tt) /\
  after (send message this) = this /\
  forall listener delivered, ~ In (Call listener delivered) (events (send message this)).
Proof.
  destruct (send_cases message) as [Hdir|[Hdir|Hnone]].
  - rewrite (send_backend_outcome this Hdir). cbn [completion after events].
    repeat split. intros listener delivered.
    destruct (encodeRequest (ipcRequest this message));
      cbn [In]; intuition discriminate.
  - rewrite (send_frontend_outcome this Hdir). cbn [completion after events].
    repeat split. intros listener delivered.
    destruct (serialize (asValue message)); cbn [In]; intuition discriminate.
  - rewrite Hnone. repeat split. intros listener delivered [].
Qed.

(** X3: [send] hands the channel one encoded message at most, and in the
    direction the type of the message asks for: of the events of a call,
    at most one is a hand-over to the channel; it is one toward the backend
    for Send and Invoke only, and one toward the frontend for Push and
    Response only. *)
Theorem send_hands_over_once_in_its_direction
    (message : IpcWebSocketMessage) (this : MobileIpcTransport) :
  length (handOvers (events (send message this))) <= 1 /\
  (forall encoded, In (SendToBackend encoded) (events (send message this)) ->
                   towardBackend message) /\
  (forall encoded, In (SendToFrontend encoded) (events (send message this)) ->
                   towardFrontend message).
Proof.
  destruct (send_cases message) as [Hdir|[Hdir|Hnone]].
  - rewrite (send_backend_outcome this Hdir). cbn [events].
    destruct (encodeRequest (ipcRequest this message)) as [encoded'|e];
      cbn [In handOvers filter isHandOver length].
    + split; [lia|]. split; [intros; exact Hdir|].
      intros encoded [H|[H|[H|[]]]]; discriminate H.
    + split; [lia|]. split; intros encoded [H|[H|[]]]; discriminate H.
  - rewrite (send_frontend_outcome this Hdir). cbn [events].
    destruct (serialize (asValue message)) as [wire|e];
      cbn [In handOvers filter isHandOver length].
    + split; [lia|]. split; [|intros; exact Hdir].
      intros encoded [H|[H|[]]]; discriminate H.
    + split; [lia|]. split; intros encoded [H|[H|[]]]; discriminate H.
  - rewrite Hnone. cbn. split; [lia|]. split; intros ? [].
Qed.

(** X4: a request is disposed only once its encoding has been handed to the
    backend: when the encoding fails, [sendToBackend] stops before
    [request.dispose()], and the request it made is never disposed. *)
Theorem send_disposes_only_after_handover
    (message : IpcWebSocketMessage) (this : MobileIpcTransport) (request : MobileRpcRequest) :
  In (Dispose request) (events (send message this)) ->
  request = ipcRequest this message /\
  exists encoded,
    encodeRequest request = Returns encoded /\
    events (send message this) =
    [EncodeRequest request; SendToBackend encoded; Dispose request].
Proof.
  destruct (send_cases message) as [Hdir|[Hdir|Hnone]].
  - rewrite (send_backend_outcome this Hdir). cbn [events].
    destruct (encodeRequest (ipcRequest this message)) as [encoded|e] eqn:Hencoded;
      cbn [In].
    + intros [H|[H|[H|[]]]]; [discriminate H|discriminate H|]. injection H as <-.
      split; [reflexivity|]. exists encoded. split; [exact Hencoded|reflexivity].
    + intros [H|[H|[]]]; discriminate H.
  - rewrite (send_frontend_outcome this Hdir). cbn [events].
    destruct (serialize (asValue message)); cbn [In];
      intros [H|[H|[]]]; discriminate H.
  - rewrite Hnone. intros [].
Qed.

(** X5: a message that arrives while no listener is registered is consumed all
    the same: the call returns true, nothing is called, nothing is kept
    for listeners to come. *)
Theorem consume_without_listeners
    (fuel : nat) (inbound : SerializedRpcRequest + RpcRequestFulfillment)
    (message : JsValue) (this : MobileIpcTransport) :
  unwraps inbound message ->
  _listeners this = [] ->
  consume fuel inbound this =
  {| completion := Some (Returns true); after := this; events := [] |}.
Proof.
  intros Hunwraps Hempty.
  rewrite consume_unwraps with (message := message) by assumption.
  unfold bind, broadcast. rewrite broadcastFrom_done by (rewrite Hempty; cbn; lia).
  reflexivity.
Qed.

(** X6: of the argument list of a request, [consumeRequest] hands out element
    0 and nothing else: what it does is to broadcast that element and then
    return true, whatever the listeners do with it; when the list is
    empty, it is [undefined] that is broadcast. Listeners that only read
    are each called with it. *)
Theorem consumeRequest_delivers_first_argument
    (fuel : nat) (request : SerializedRpcRequest) (arguments : list JsValue)
    (this : MobileIpcTransport) :
  interfaceDefinition (operation request) = IPC ->
  deserialize (parameters request) = Returns (JsArray arguments) ->
  let first := match arguments with
               | [] => JsUndefined
               | first :: _ => first
               end in
  consumeRequest fuel request this = (broadcast fuel first ;; ret true) this /\
  (Forall (onlyReads first) (_listeners this) ->
   length (_listeners this) <= fuel ->
   consumeRequest fuel request this =
   {| completion := Some (Returns true); after := this;
      events := map (fun listener => Call listener first) (_listeners this) |}).
Proof.
  intros Hipc Harguments first.
  assert (Hunwraps : unwraps (inl request) first).
  { cbn [unwraps]. split; [exact Hipc|].
    exists (JsArray arguments). split; [exact Harguments|].
    subst first. destruct arguments; reflexivity. }
  change (consumeRequest fuel request this) with (consume fuel (inl request) this).
  split.
  - apply consume_unwraps, Hunwraps.
  - intros Hreads Hfuel. apply consume_readers; assumption.
Qed.

(** X7: a listener registered after a message was handled is not called with
    that message, and is called with the next one, after the listeners
    registered before it. The three calls do what broadcasting the first
    message, registering the listener and broadcasting the second do
    one after the other, so that a listener that throws at the first
    message ends the sequence there; with listeners that only read, it
    runs to its end. *)
Theorem listener_registered_between_messages
    (fuel fuel' : nat) (first second : SerializedRpcRequest + RpcRequestFulfillment)
    (message message' : JsValue) (handler : Listener) (this : MobileIpcTransport) :
  unwraps first message ->
  unwraps second message' ->
  (consume fuel first ;; listen handler ;; consume fuel' second) this =
  (broadcast fuel message ;; listen handler ;; broadcast fuel' message' ;; ret true) this /\
  (Forall (onlyReads message) (_listeners this) ->
   Forall (onlyReads message') (_listeners this ++ [handler]) ->
   length (_listeners this) <= fuel ->
   length (_listeners this) < fuel' ->
   (consume fuel first ;; listen handler ;; consume fuel' second) this =
   {| completion := Some (Returns true);
      after := withListeners this (_listeners this ++ [handler]);
      events := map (fun listener => Call listener message) (_listeners this)
                ++ map (fun listener => Call listener message')
                       (_listeners this ++ [handler]) |}).
Proof.
  intros Hfirst Hsecond. split.
  - unfold bind.
    rewrite consume_unwraps with (message := message) by assumption.
    unfold bind.
    destruct (broadcast fuel message this) as [[[[]|e]|] this1 events1];
      cbn [completion after events]; try reflexivity.
    rewrite consume_unwraps with (message := message') by assumption.
    unfold bind. cbn [listen ret completion after events app].
    rewrite (app_nil_r events1). reflexivity.
  - intros Hreads Hreads' Hfuel Hfuel'.
    set (later := withListeners this (_listeners this ++ [handler])).
    assert (H1 : consume fuel first this =
                 {| completion := Some (Returns true); after := this;
                    events := deliveries message (_listeners this) |})
      by (apply consume_readers; assumption).
    assert (H2 : consume fuel' second later =
                 {| completion := Some (Returns true); after := later;
                    events := deliveries message' (_listeners later) |}).
    { apply consume_readers; [exact Hsecond|exact Hreads'|].
      cbn [later withListeners _listeners]. rewrite length_app. cbn [length]. lia. }
    unfold bind. rewrite H1. cbn [completion after events listen].
    change {| _listeners := _listeners this ++ [handler]; _client := _client this |}
      with later.
    rewrite H2. reflexivity.
Qed.

End TransportProperties.

Section LoopProperties.
Context {marshaling : RpcMarshaling} {protocol : MobileRpcProtocol} {code : ListenerCode}.

(** X8: the loop of [broadcast] in full, with listeners that register
    listeners, write to the message or throw: the calls go down the
    listener list, one call per entry, in order, the first with the message
    and each of the others with the message as the call before it left it;
    the list ends up as the list at the start followed by what the called
    listeners registered, in the order of the calls; and the loop ends in
    one of three ways. It returns when every entry of the list as it then
    stands has been called and every call has returned, not before; or it
    throws what a listener threw, that call being the last one made; or it
    is still running, entries to call before it, when the turns it was
    given are used up. *)
Theorem broadcast_walks_the_growing_list
    (fuel : nat) (message : JsValue) (this : MobileIpcTransport) :
  let o := broadcast fuel message this in
  exists calls pending,
    events o = map (fun call => Call (fst call) (snd call)) calls /\
    chained message calls /\
    _listeners (after o) = map fst calls ++ pending /\
    _listeners (after o) =
      _listeners this ++ flat_map (fun call => reenters (fst call) (snd call)) calls /\
    ((completion o = Some (Returns tt) /\ pending = [] /\ Forall returned calls) \/
     (exists e before last,
        completion o = Some (Throws e) /\ calls = before ++ [last] /\
        Forall returned before /\ threw e last) \/
     (completion o = None /\ length calls = fuel /\ pending <> [] /\
      Forall returned calls)).
Proof.
  exact (broadcastFrom_trace fuel message 0 this).
Qed.

Lemma broadcastFrom_keeps_running :
  (forall listener message,
     reenters listener message <> [] /\
     ends (reacts listener message) = Returns tt) ->
  forall (fuel index : nat) (message : JsValue) (this : MobileIpcTransport),
    index < length (_listeners this) ->
    completion (broadcastFrom fuel index message this) = None /\
    length (events (broadcastFrom fuel index message this)) = fuel.
Proof.
  intros Hregisters. induction fuel as [|fuel IH]; intros index message this Hindex;
    destruct (nth_error (_listeners this) index) as [listener|] eqn:Hnth;
    try (apply nth_error_None in Hnth; lia).
  - cbn. rewrite Hnth. split; reflexivity.
  - rewrite broadcastFrom_step with (listener := listener) by assumption.
    cbn zeta. destruct (Hregisters listener message) as [Hmore ->].
    cbn [completion events length].
    destruct (IH (S index) (leaves (reacts listener message))
                (withListeners this (_listeners this ++ reenters listener message)))
      as [Hrunning Hcalls].
    + cbn [withListeners _listeners]. rewrite length_app.
      destruct (reenters listener message); [contradiction|cbn [length]; lia].
    + split; [exact Hrunning|rewrite Hcalls; reflexivity].
Qed.

(** X9: when every listener registers a listener each time it is called
    and returns (such as a listener that registers itself again), the
    handling of a message never returns: with at least one listener
    registered, however many turns the loop is given, it has made that many
    calls and is not done. *)
Theorem consume_never_returns_when_listeners_keep_registering
    (inbound : SerializedRpcRequest + RpcRequestFulfillment) (message : JsValue)
    (this : MobileIpcTransport) (fuel : nat) :
  unwraps inbound message ->
  (forall listener received,
     reenters listener received <> [] /\
     ends (reacts listener received) = Returns tt) ->
  _listeners this <> [] ->
  completion (consume fuel inbound this) = None /\
  length (events (consume fuel inbound this)) = fuel.
Proof.
  intros Hunwraps Hregisters Hsome.
  rewrite consume_unwraps with (message := message) by assumption.
  unfold bind, broadcast.
  destruct (@broadcastFrom_keeps_running Hregisters fuel 0 message this)
    as [Hrunning Hcalls].
  - destruct (_listeners this); [contradiction|cbn; lia].
  - rewrite Hrunning. cbn [completion events]. split; [reflexivity|exact Hcalls].
Qed.


End LoopProperties.

(** ** The further properties at work *)

Section ReporterScenario.
Import PerfReporter.
#[local] Existing Instance plainInterpolation.
#[local] Existing Instance plainVolume.

Example exportCSV_new_file :
  disk (exportCSV "report"
          (addEntry "Suite" "Test" "time" "12"%string (JsString "ms") create) emptyDisk)
    "report.csv"%string =
  Some ("Test Suite,Test Name,Value Name,Value,Info" ++ LF
        ++ "Test,Suite,time,12,ms" ++ LF)%string.
Proof. reflexivity. Qed.

Example exportCSV_other_case :
  csvName "report.CSV" = "report.CSV.csv"%string /\ csvName ".csv" = ".csv"%string /\
  csvName "" = ".csv"%string.
Proof. repeat split. Qed.

(** Where the directory is missing, and where the path is that of a
    directory, the export throws and no file is made. *)
Example exportCSV_nowhere_to_write :
  let reporter := addEntry "Suite" "Test" "time" "12"%string (JsString "ms") create in
  raised (exportCSV "nodir/report" reporter emptyDisk) = Some ENOENT /\
  disk (exportCSV "nodir/report" reporter emptyDisk) "nodir/report.csv"%string = None /\
  raised (exportCSV "logs" reporter emptyDisk) = Some EISDIR /\
  disk (exportCSV "logs" reporter emptyDisk) "logs.csv"%string = None.
Proof. repeat split. Qed.

Lemma exportCSV_names_the_csv_file_witness :
  let reporter := addEntry "Suite" "Test" "time" "12"%string (JsString "ms") create in
  (forall path,
     disk (exportCSV "report" reporter emptyDisk) path <> emptyDisk path ->
     path = "report.csv"%string /\ endsWith path ".csv" = true) /\
  (raised (exportCSV "report" reporter emptyDisk) = None ->
   exists contents,
     disk (exportCSV "report" reporter emptyDisk) "report.csv"%string = Some contents) /\
  (endsWith "report" ".csv" = false ->
   exportCSV ("report" ++ ".csv") reporter emptyDisk = exportCSV "report" reporter emptyDisk).
Proof.
  intros reporter.
  apply (@exportCSV_names_the_csv_file plainInterpolation plainVolume "report" reporter
           emptyDisk).
Defined.

Lemma exportCSV_touches_one_file_witness :
  let reporter := addEntry "Suite" "Test" "time" "12"%string (JsString "ms") create in
  let fs := disk (appendFileSync "notes.txt" "keep" emptyDisk) in
  "notes.txt"%string <> csvName "report" /\
  disk (exportCSV "report" reporter fs) "notes.txt"%string = Some "keep"%string.
Proof.
  intros reporter fs.
  assert (H : "notes.txt"%string <> csvName "report") by discriminate.
  split; [exact H|].
  apply (@exportCSV_touches_one_file plainInterpolation plainVolume "report" reporter fs
           "notes.txt" H).
Defined.

Lemma exportCSV_twice_witness :
  let reporter := addEntry "Suite" "Test" "time" "12"%string (JsString "ms") create in
  let once := exportCSV "report" reporter emptyDisk in
  let twice := exportCSV "report" reporter (disk once) in
  raised once = None /\
  raised twice = None /\
  disk twice (csvName "report") = Some (header ++ lines reporter ++ lines reporter)%string.
Proof.
  intros reporter.
  apply (@exportCSV_twice plainInterpolation plainVolume "report" reporter reporter
           emptyDisk eq_refl eq_refl).
Defined.

Lemma line_swaps_suite_and_name_witness :
  let entry := {| testSuite := "Suite"; testName := "Test"; valueName := "time";
                  value := "12"%string; info := JsString "ms" |} in
  nth 0 (splitAt "," header) EmptyString = "Test Suite"%string /\
  nth 0 (splitAt "," (line entry)) EmptyString = "Test"%string /\
  nth 1 (splitAt "," header) EmptyString = "Test Name"%string /\
  nth 1 (splitAt "," (line entry)) EmptyString = "Suite"%string.
Proof.
  intros entry.
  apply (@line_swaps_suite_and_name plainInterpolation entry eq_refl eq_refl).
Defined.

End ReporterScenario.

Section TransportScenario.
#[local] Existing Instance identityMarshaling.
#[local] Existing Instance loopbackProtocol.
#[local] Existing Instance numberedListeners.

Lemma consumeResponse_declines_other_interfaces_witness :
  let response :=
    {| result := JsString "0x1"; rawResult := JsString "0x1";
       interfaceName := "IModelReadRpcInterface"; id := "42"; status := 0 |} in
  interfaceName response <> IPC /\
  consumeResponse 3 response threeListeners =
  {| completion := Some (Returns false); after := threeListeners; events := [] |}.
Proof.
  intros response.
  assert (H : interfaceName response <> IPC) by discriminate.
  split; [exact H|].
  apply (@consumeResponse_declines_other_interfaces identityMarshaling
           (loopbackProtocol identityMarshaling) numberedListeners 3 response
           threeListeners H).
Defined.

Lemma send_hands_over_once_in_its_direction_witness :
  length (handOvers (events (send ping threeListeners))) <= 1 /\
  (forall encoded, In (SendToBackend encoded) (events (send ping threeListeners)) ->
                   towardBackend ping) /\
  (forall encoded, In (SendToFrontend encoded) (events (send ping threeListeners)) ->
                   towardFrontend ping).
Proof.
  apply (@send_hands_over_once_in_its_direction identityMarshaling
           (loopbackProtocol identityMarshaling) numberedListeners ping threeListeners).
Defined.

Lemma send_disposes_only_after_handover_witness :
  let request := {| requestClient := IpcInterface; requestOperation := "send";
                    requestParameters := [asValue ping] |} in
  In (Dispose request) (events (send ping threeListeners)) /\
  request = ipcRequest threeListeners ping /\
  exists encoded,
    encodeRequest request = Returns encoded /\
    events (send ping threeListeners) =
    [EncodeRequest request; SendToBackend encoded; Dispose request].
Proof.
  intros request.
  assert (H : In (Dispose request) (events (send ping threeListeners)))
    by (right; right; left; reflexivity).
  split; [exact H|].
  apply (@send_disposes_only_after_handover identityMarshaling
           (loopbackProtocol identityMarshaling) numberedListeners ping threeListeners
           request H).
Defined.

Lemma consume_without_listeners_witness :
  consume 0 (inl pingRequest) constructor =
  {| completion := Some (Returns true); after := constructor; events := [] |}.
Proof.
  apply (@consume_without_listeners identityMarshaling
           (loopbackProtocol identityMarshaling) numberedListeners 0 (inl pingRequest)
           (asValue ping) constructor).
  - cbn. split; [reflexivity|]. eexists. split; reflexivity.
  - reflexivity.
Defined.

Lemma consumeRequest_delivers_first_argument_witness :
  let request :=
    {| operation := {| interfaceDefinition := IPC; operationName := "send" |};
       parameters := JsArray [] |} in
  consumeRequest 3 request threeListeners =
  (broadcast 3 JsUndefined ;; ret true) threeListeners /\
  (Forall (onlyReads JsUndefined) (_listeners threeListeners) ->
   length (_listeners threeListeners) <= 3 ->
   consumeRequest 3 request threeListeners =
   {| completion := Some (Returns true); after := threeListeners;
      events := map (fun listener => Call listener JsUndefined)
                    (_listeners threeListeners) |}).
Proof.
  intros request.
  apply (@consumeRequest_delivers_first_argument identityMarshaling
           (loopbackProtocol identityMarshaling) numberedListeners 3 request []
           threeListeners).
  - reflexivity.
  - reflexivity.
Defined.

Lemma listener_registered_between_messages_witness :
  (consume 3 (inl pingRequest) ;; listen 4 ;; consume 4 (inr pongFulfillment))
    threeListeners =
  (broadcast 3 (asValue ping) ;; listen 4 ;; broadcast 4 (asValue pong) ;; ret true)
    threeListeners /\
  (Forall (onlyReads (asValue ping)) (_listeners threeListeners) ->
   Forall (onlyReads (asValue pong)) (_listeners threeListeners ++ [4]) ->
   length (_listeners threeListeners) <= 3 ->
   length (_listeners threeListeners) < 4 ->
   (consume 3 (inl pingRequest) ;; listen 4 ;; consume 4 (inr pongFulfillment))
     threeListeners =
   {| completion := Some (Returns true);
      after := withListeners threeListeners (_listeners threeListeners ++ [4]);
      events := map (fun listener => Call listener (asValue ping))
                    (_listeners threeListeners)
                ++ map (fun listener => Call listener (asValue pong))
                       (_listeners threeListeners ++ [4]) |}).
Proof.
  apply (@listener_registered_between_messages identityMarshaling
           (loopbackProtocol identityMarshaling) numberedListeners 3 4
           (inl pingRequest) (inr pongFulfillment) (asValue ping) (asValue pong) 4
           threeListeners).
  - cbn. split; [reflexivity|]. eexists. split; reflexivity.
  - cbn. split; reflexivity.
Defined.

Example registering_between_messages_run :
  (consume 3 (inl pingRequest) ;; listen 4 ;; consume 4 (inr pongFulfillment))
    threeListeners =
  {| completion := Some (Returns true);
     after := @Build_MobileIpcTransport numberedListeners [1; 2; 3; 4] IpcInterface;
     events := [Call 1 (asValue ping); Call 2 (asValue ping); Call 3 (asValue ping);
                Call 1 (asValue pong); Call 2 (asValue pong); Call 3 (asValue pong);
                Call 4 (asValue pong)] |}.
Proof. reflexivity. Qed.

(** Listener 7 registers listener 8 at every call; with two turns, the loop
    has called 1 and 7 and has 8 yet to call. *)
Example broadcast_stops_short :
  broadcast 2 (asValue ping)
    (@Build_MobileIpcTransport numberedListeners [1; 7] IpcInterface) =
  {| completion := None;
     after := @Build_MobileIpcTransport numberedListeners [1; 7; 8] IpcInterface;
     events := [Call 1 (asValue ping); Call 7 (asValue ping)] |}.
Proof. reflexivity. Qed.

(** Listener 5 writes to the message, which is the one object every
    listener is handed: listener 1, called after it, finds what it
    wrote. *)
Example broadcast_shares_the_message :
  events (broadcast 2 (asValue ping)
            (@Build_MobileIpcTransport numberedListeners [5; 1] IpcInterface)) =
  [Call 5 (asValue ping); Call 1 (seen (asValue ping))].
Proof. reflexivity. Qed.

End TransportScenario.

Lemma consume_never_returns_when_listeners_keep_registering_witness :
  let this := @Build_MobileIpcTransport selfRegistering [1] IpcInterface in
  let o :=
    @consume identityMarshaling (loopbackProtocol identityMarshaling) selfRegistering
      25 (inl pingRequest) this in
  completion o = None /\ length (events o) = 25.
Proof.
  cbn zeta.
  apply (@consume_never_returns_when_listeners_keep_registering identityMarshaling
           (loopbackProtocol identityMarshaling) selfRegistering (inl pingRequest)
           (asValue ping)).
  - cbn. split; [reflexivity|]. eexists. split; reflexivity.
  - intros listener received. split; [discriminate|reflexivity].
  - discriminate.
Defined.

(** ** AzureFileHandler: properties *)

Section BlockFacts.
Import AzureFileHandler.

Lemma take_zero {A} (l : list A) : take 0 l = [].
Proof. destruct l; reflexivity. Qed.

Lemma drop_zero {A} (l : list A) : drop 0 l = l.
Proof. destruct l; reflexivity. Qed.

Lemma take_cons {A} (count : N) (x : A) (l : list A) :
  (0 < count)%N -> take count (x :: l) = x :: take (N.pred count) l.
Proof. intros H. cbn. destruct (N.eqb_spec count 0); [lia|reflexivity]. Qed.

Lemma drop_cons {A} (count : N) (x : A) (l : list A) :
  (0 < count)%N -> drop count (x :: l) = drop (N.pred count) l.
Proof. intros H. cbn. destruct (N.eqb_spec count 0); [lia|reflexivity]. Qed.

Lemma take_add {A} (l : list A) :
  forall a b : N, take (a + b) l = take a l ++ take b (drop a l).
Proof.
  induction l as [|x l IH]; intros a b; [reflexivity|].
  destruct (N.eq_dec a 0) as [->|Ha].
  - rewrite N.add_0_l, take_zero, drop_zero. reflexivity.
  - rewrite (take_cons (count := a + b)), (take_cons (count := a)), (drop_cons (count := a))
      by lia.
    replace (N.pred (a + b)) with (N.pred a + b)%N by lia.
    rewrite IH. reflexivity.
Qed.

Lemma drop_add {A} (l : list A) :
  forall a b : N, drop b (drop a l) = drop (a + b) l.
Proof.
  induction l as [|x l IH]; intros a b; [destruct b; reflexivity|].
  destruct (N.eq_dec a 0) as [->|Ha].
  - rewrite N.add_0_l, drop_zero. reflexivity.
  - rewrite (drop_cons (count := a)), (drop_cons (count := a + b)) by lia.
    replace (N.pred (a + b)) with (N.pred a + b)%N by lia.
    apply IH.
Qed.

Lemma take_all {A} (l : list A) :
  forall count : N, (N.of_nat (length l) <= count)%N -> take count l = l.
Proof.
  induction l as [|x l IH]; intros count Hcount; [reflexivity|].
  cbn [length] in Hcount. rewrite take_cons by lia. rewrite IH by lia. reflexivity.
Qed.



(** The condition of the loop holds for the block numbers below the block
    count and for no other. *)
Lemma loop_condition (i fileSize : N) :
  (i * chunkSize <? fileSize)%N = (i <? blockCount fileSize)%N.
Proof.
  unfold blockCount. assert (Hc : (0 < chunkSize)%N) by reflexivity.
  generalize dependent chunkSize. intros c Hc.
  destruct (N.ltb_spec (i * c) fileSize) as [Hlt|Hge];
    destruct (N.ltb_spec i ((fileSize + c - 1) / c)) as [Hlt'|Hge']; try reflexivity.
  - exfalso. assert (((i + 1) * c) / c <= (fileSize + c - 1) / c)%N
      by (apply N.Div0.div_le_mono; lia).
    rewrite N.div_mul in H by lia. lia.
  - exfalso. assert (c * ((fileSize + c - 1) / c) <= fileSize + c - 1)%N
      by (apply N.Div0.mul_div_le).
    nia.
Qed.

End BlockFacts.

Section HexFacts.
Import AzureFileHandler.

Lemma hexValue_hexDigit (d : N) : (d < 16)%N -> hexValue (hexDigit d) = d.
Proof.
  intros Hd.
  assert (H : (d = 0 \/ d = 1 \/ d = 2 \/ d = 3 \/ d = 4 \/ d = 5 \/ d = 6 \/ d = 7 \/
               d = 8 \/ d = 9 \/ d = 10 \/ d = 11 \/ d = 12 \/ d = 13 \/ d = 14 \/
               d = 15)%N) by lia.
  repeat (destruct H as [->|H]; [reflexivity|]). subst d. reflexivity.
Qed.

Lemma parse_hexDigits (fuel : nat) :
  forall (n : N) (lower : string),
    (n < 16 ^ N.of_nat fuel)%N ->
    parseHexFrom 0 (hexDigits fuel n lower) = parseHexFrom n lower.
Proof.
  induction fuel as [|fuel IH]; intros n lower Hn.
  - cbn in *. replace n with 0%N by lia. reflexivity.
  - cbn [hexDigits]. cbn zeta.
    assert (Hmod : (n mod 16 < 16)%N) by (apply N.mod_lt; lia).
    pose proof (N.div_mod n 16 ltac:(lia)) as Hdiv.
    destruct (N.eqb_spec (n / 16) 0) as [Hzero|Hmore].
    + cbn [parseHexFrom]. rewrite hexValue_hexDigit by assumption.
      f_equal. lia.
    + rewrite IH.
      * cbn [parseHexFrom]. rewrite hexValue_hexDigit by assumption. f_equal. lia.
      * rewrite Nat2N.inj_succ, N.pow_succ_r' in Hn.
        apply N.Div0.div_lt_upper_bound. lia.
Qed.

Lemma toString16_fuel (n : N) : (n < 16 ^ N.of_nat (S (N.to_nat (N.log2 n))))%N.
Proof.
  rewrite Nat2N.inj_succ, N2Nat.id.
  destruct (N.eq_dec n 0) as [->|Hn]; [reflexivity|].
  destruct (N.log2_spec n ltac:(lia)) as [_ Hupper].
  eapply N.lt_le_trans; [exact Hupper|].
  apply N.pow_le_mono_l. lia.
Qed.

Lemma parse_fill_zero (count : nat) (s : string) :
  parseHexFrom 0 (fill count "0" s) = parseHexFrom 0 s.
Proof. induction count as [|count IH]; [reflexivity|exact IH]. Qed.

Lemma fill_length (count : nat) (pad : ascii) (s : string) :
  String.length (fill count pad s) = count + String.length s.
Proof. induction count as [|count IH]; cbn; [|rewrite IH]; reflexivity. Qed.

Lemma hexDigits_at_most (fuel : nat) :
  forall (k : nat) (n : N) (lower : string),
    1 <= k ->
    (n < 16 ^ N.of_nat k)%N ->
    String.length (hexDigits fuel n lower) <= k + String.length lower.
Proof.
  induction fuel as [|fuel IH]; intros k n lower Hk Hn; [cbn; lia|].
  cbn [hexDigits]. cbn zeta.
  destruct (N.eqb_spec (n / 16) 0) as [Hzero|Hmore]; [cbn; lia|].
  destruct k as [|[|k]]; [lia| |].
  - exfalso. apply Hmore. apply N.div_small. cbn in Hn. lia.
  - specialize (IH (S k) (n / 16)%N (String (hexDigit (n mod 16)) lower)).
    cbn [String.length] in IH. rewrite IH; [lia|lia|].
    rewrite (Nat2N.inj_succ (S k)), N.pow_succ_r' in Hn.
    apply N.Div0.div_lt_upper_bound. lia.
Qed.

Lemma hexDigits_at_least (fuel : nat) :
  forall (k : nat) (n : N) (lower : string),
    (16 ^ N.of_nat k <= n)%N ->
    (n < 16 ^ N.of_nat fuel)%N ->
    k + 1 + String.length lower <= String.length (hexDigits fuel n lower).
Proof.
  induction fuel as [|fuel IH]; intros k n lower Hk Hn.
  - exfalso. cbn in Hn. pose proof (N.pow_nonzero 16 (N.of_nat k) ltac:(lia)) as Hpow. lia.
  - cbn [hexDigits]. cbn zeta.
    rewrite Nat2N.inj_succ, N.pow_succ_r' in Hn.
    assert (Hless : (n / 16 < 16 ^ N.of_nat fuel)%N)
      by (apply N.Div0.div_lt_upper_bound; lia).
    destruct (N.eqb_spec (n / 16) 0) as [Hzero|Hmore].
    + destruct k as [|k]; [cbn; lia|]. exfalso.
      rewrite Nat2N.inj_succ, N.pow_succ_r' in Hk.
      pose proof (N.pow_nonzero 16 (N.of_nat k) ltac:(lia)) as Hpow.
      assert (n < 16)%N by (apply N.div_small_iff in Hzero; lia). nia.
    + destruct k as [|k].
      * specialize (IH 0 (n / 16)%N (String (hexDigit (n mod 16)) lower)).
        cbn [String.length] in IH. cbn in IH |- *.
        assert (1 <= n / 16)%N by (clear - Hmore; destruct (n / 16)%N; [contradiction|lia]).
        specialize (IH ltac:(assumption) Hless). lia.
      * specialize (IH k (n / 16)%N (String (hexDigit (n mod 16)) lower)).
        cbn [String.length] in IH.
        rewrite Nat2N.inj_succ, N.pow_succ_r' in Hk.
        assert (16 ^ N.of_nat k <= n / 16)%N
          by (apply N.div_le_lower_bound; lia).
        specialize (IH ltac:(assumption) Hless). lia.
Qed.

Lemma blockIdDigits_reads_back (blockId : N) : parseHex (blockIdDigits blockId) = blockId.
Proof.
  unfold parseHex, blockIdDigits, padStart, toString16.
  rewrite parse_fill_zero, parse_hexDigits by apply toString16_fuel. reflexivity.
Qed.

End HexFacts.

Section HandlerProperties.
Import AzureFileHandler.
Context {platform : Platform}.

Lemma blockNumbers_length (start : N) (count : nat) :
  length (blockNumbers start count) = count.
Proof.
  revert start; induction count as [|count IH]; intros start; cbn;
    [|rewrite IH]; reflexivity.
Qed.

Lemma blockNumbers_snoc (count : nat) :
  forall start : N,
    blockNumbers start (S count) = blockNumbers start count ++ [start + N.of_nat count]%N.
Proof.
  induction count as [|count IH]; intros start.
  - cbn. rewrite N.add_0_r. reflexivity.
  - cbn [blockNumbers] in *. rewrite IH. cbn [app]. do 3 f_equal. lia.
Qed.

Lemma uploadChunk_made (uploadUrlString : string) (file : list Byte.byte) (blockId : N) :
  uploadChunk uploadUrlString file blockId =
  {| settled := Some (request (fst (blockRequest uploadUrlString file blockId))
                              (snd (blockRequest uploadUrlString file blockId)));
     requests := [blockRequest uploadUrlString file blockId] |}.
Proof. reflexivity. Qed.

(** The loop while every request succeeds. *)
Lemma uploadBlocks_reliable (uploadUrlString : string) (file : list Byte.byte)
    (fileSize : N) :
  reliable ->
  forall (count fuel : nat) (i : N) (blockList : string),
    (i + N.of_nat count = blockCount fileSize)%N ->
    count <= fuel ->
    uploadBlocks fuel uploadUrlString file fileSize i blockList =
    {| settled :=
         Some (Resolved (blockList
                         ++ String.concat "" (map latest (blockNumbers i count)))%string);
       requests := map (blockRequest uploadUrlString file) (blockNumbers i count) |}.
Proof.
  intros Hreliable. induction count as [|count IH]; intros fuel i blockList Hcount Hfuel.
  - destruct fuel; cbn [uploadBlocks]; rewrite loop_condition;
      (destruct (N.ltb_spec i (blockCount fileSize)); [lia|]);
      cbn; rewrite append_empty_r; reflexivity.
  - destruct fuel as [|fuel]; [lia|]. cbn [uploadBlocks]. rewrite loop_condition.
    destruct (N.ltb_spec i (blockCount fileSize)); [|lia].
    rewrite uploadChunk_made, Hreliable. unfold andThen. cbn [settled requests].
    rewrite IH by lia. cbn [settled requests blockNumbers map app].
    rewrite concat_lines. fold (latest i).
    rewrite !append_assoc. reflexivity.
Qed.

(** The loop up to the first request that fails. *)
Lemma uploadBlocks_failing (uploadUrlString : string) (file : list Byte.byte)
    (fileSize : N) (failure : Failure) :
  forall (count fuel : nat) (i : N) (blockList : string),
    (forall j, (i <= j < i + N.of_nat count)%N ->
               request (fst (blockRequest uploadUrlString file j))
                       (snd (blockRequest uploadUrlString file j)) = Resolved tt) ->
    request (fst (blockRequest uploadUrlString file (i + N.of_nat count)))
            (snd (blockRequest uploadUrlString file (i + N.of_nat count)))
    = RejectedWith failure ->
    (i + N.of_nat count < blockCount fileSize)%N ->
    count < fuel ->
    uploadBlocks fuel uploadUrlString file fileSize i blockList =
    {| settled := Some (RejectedWith failure);
       requests := map (blockRequest uploadUrlString file) (blockNumbers i (S count)) |}.
Proof.
  induction count as [|count IH]; intros fuel i blockList Hbefore Hfails Hwithin Hfuel;
    (destruct fuel as [|fuel]; [lia|]); cbn [uploadBlocks]; rewrite loop_condition;
    (destruct (N.ltb_spec i (blockCount fileSize)); [|lia]);
    rewrite uploadChunk_made; unfold andThen; cbn [settled requests].
  - cbn [N.of_nat] in Hfails. rewrite N.add_0_r in Hfails. rewrite Hfails. reflexivity.
  - rewrite Hbefore by lia. cbn [settled requests].
    rewrite IH.
    + reflexivity.
    + intros j Hj. apply Hbefore. lia.
    + replace (i + 1 + N.of_nat count)%N with (i + N.of_nat (S count))%N by lia.
      exact Hfails.
    + lia.
    + lia.
Qed.

(** The blocks of consecutive numbers, put end to end, are the bytes of the
    file from the first of the blocks on. *)
Lemma blocks_concat (file : list Byte.byte) (count : nat) :
  forall start : N,
    List.concat (map (fun i => take chunkSize (drop (chunkSize * i) file))
                     (blockNumbers start count)) =
    take (chunkSize * N.of_nat count) (drop (chunkSize * start) file).
Proof.
  induction count as [|count IH]; intros start.
  - cbn [blockNumbers map List.concat N.of_nat]. rewrite N.mul_0_r, take_zero. reflexivity.
  - cbn [blockNumbers map List.concat]. rewrite IH.
    replace (chunkSize * N.of_nat (S count))%N
      with (chunkSize + chunkSize * N.of_nat count)%N by lia.
    rewrite take_add, drop_add. do 3 f_equal. lia.
Qed.

Lemma blockCount_covers (fileSize : N) : (fileSize <= chunkSize * blockCount fileSize)%N.
Proof.
  unfold blockCount. assert (Hc : (0 < chunkSize)%N) by reflexivity.
  generalize dependent chunkSize. intros c Hc.
  pose proof (N.div_mod (fileSize + c - 1) c ltac:(lia)) as Hdiv.
  pose proof (N.mod_lt (fileSize + c - 1) c ltac:(lia)) as Hmod.
  lia.
Qed.

(** X18: with every request getting through, [uploadFile] uploads the
    whole file and then commits it: it makes one request per block, for
    the blocks 0, 1, ... in order, as many as the size of the file divided
    by four mebibytes, rounded up; the bytes of these requests, put end to
    end, are the bytes of the file; and one last request carries the block
    list that names those blocks in that order. The promise resolves. *)
Theorem uploadFile_uploads_the_whole_file
    (fuel : nat) (uploadUrlString uploadFromPathname : string) (file : list Byte.byte) :
  reliable ->
  isBrowser = false ->
  disk uploadFromPathname = Some file ->
  N.to_nat (blockCount (N.of_nat (length file))) <= fuel ->
  let numbers := blockNumbers 0 (N.to_nat (blockCount (N.of_nat (length file)))) in
  let blocks := map (blockRequest uploadUrlString file) numbers in
  uploadFile fuel uploadUrlString uploadFromPathname =
  {| settled := Some (Resolved tt);
     requests := blocks ++ [commitRequest uploadUrlString (blockListOf numbers)] |} /\
  List.concat (map bufferOf blocks) = file.
Proof.
  intros Hreliable Hdesktop Hfile Hfuel numbers blocks. split.
  - unfold uploadFile. rewrite Hdesktop, Hfile.
    rewrite uploadBlocks_reliable
      with (count := N.to_nat (blockCount (N.of_nat (length file))))
      by (try assumption; rewrite N2Nat.id; lia).
    unfold andThen. cbn [settled requests]. unfold awaitRequest. cbn [settled requests].
    rewrite Hreliable. fold numbers. fold blocks.
    unfold commitRequest, blockListOf.
    rewrite !append_assoc. reflexivity.
  - subst blocks numbers. rewrite map_map.
    change (fun x => bufferOf (blockRequest uploadUrlString file x))
      with (fun i => take chunkSize (drop (chunkSize * i) file)).
    rewrite blocks_concat, N.mul_0_r, drop_zero, N2Nat.id.
    apply take_all, blockCount_covers.
Qed.

(** X19: when the request for a block fails after the requests for the
    blocks before it went through, [uploadFile] stops there: its promise
    is rejected with that failure, the failed request is the last one made,
    and the block list is not committed. *)
Theorem uploadFile_stops_at_the_first_failure
    (fuel : nat) (uploadUrlString uploadFromPathname : string) (file : list Byte.byte)
    (failed : nat) (failure : Failure) :
  isBrowser = false ->
  disk uploadFromPathname = Some file ->
  (N.of_nat failed < blockCount (N.of_nat (length file)))%N ->
  (forall j, (j < N.of_nat failed)%N ->
             request (fst (blockRequest uploadUrlString file j))
                     (snd (blockRequest uploadUrlString file j)) = Resolved tt) ->
  request (fst (blockRequest uploadUrlString file (N.of_nat failed)))
          (snd (blockRequest uploadUrlString file (N.of_nat failed)))
  = RejectedWith failure ->
  failed < fuel ->
  uploadFile fuel uploadUrlString uploadFromPathname =
  {| settled := Some (RejectedWith failure);
     requests := map (blockRequest uploadUrlString file) (blockNumbers 0 (S failed)) |}.
Proof.
  intros Hdesktop Hfile Hwithin Hbefore Hfails Hfuel.
  unfold uploadFile. rewrite Hdesktop, Hfile.
  rewrite uploadBlocks_failing with (failure := failure) (count := failed).
  - reflexivity.
  - intros j Hj. apply Hbefore. lia.
  - exact Hfails.
  - exact Hwithin.
  - exact Hfuel.
Qed.

(** X20: in a browser, or when there is no file at the path, [uploadFile]
    rejects without making a request. *)
Theorem uploadFile_rejects_without_a_request
    (fuel : nat) (uploadUrlString uploadFromPathname : string) :
  isBrowser = true \/ disk uploadFromPathname = None ->
  requests (uploadFile fuel uploadUrlString uploadFromPathname) = [] /\
  settled (uploadFile fuel uploadUrlString uploadFromPathname) =
  Some (RejectedWith
          (if isBrowser then BrowserError
           else FileNotFound
                  ("Could not find file at specified location: " ++ uploadFromPathname))).
Proof.
  unfold uploadFile. intros [Hbrowser|Hmissing].
  - rewrite Hbrowser. split; reflexivity.
  - rewrite Hmissing. destruct isBrowser; split; reflexivity.
Qed.


(** X22: the digits of a block id read back as the number of the block,
    so that, given an encoding that keeps different texts apart, different
    blocks get different ids. *)
Theorem getBlockId_injective (first second : N) :
  (forall a b, encode a = encode b -> a = b) ->
  getBlockId first = getBlockId second ->
  first = second.
Proof.
  intros Hencode Hsame. apply Hencode in Hsame.
  change (blockIdDigits first = blockIdDigits second) in Hsame.
  rewrite <- (blockIdDigits_reads_back first), <- (blockIdDigits_reads_back second), Hsame.
  reflexivity.
Qed.

(** X23: the block ids of a file are all of the same length as long as the
    file is of four tebibytes (1048576 blocks) at most: what [getBlockId]
    encodes for a block of such a file, and [uploadChunk] puts in the
    address of its request, is five hexadecimal digits that read back as
    the number of the block. A larger file has a block, number 1048576,
    for which it is six digits. *)
Theorem block_ids_have_five_digits (small large : N) :
  (small <= 2 ^ 42)%N ->
  (2 ^ 42 < large)%N ->
  (forall blockId,
     (blockId * chunkSize < small)%N ->
     exists digits,
       getBlockId blockId = encode digits /\
       String.length digits = 5 /\
       parseHex digits = blockId /\
       forall uploadUrlString file,
         map fst (requests (uploadChunk uploadUrlString file blockId)) =
         [(uploadUrlString ++ "&comp=block&blockid=" ++ encode digits)%string]) /\
  (exists blockId digits,
     (blockId * chunkSize < large)%N /\
     getBlockId blockId = encode digits /\
     String.length digits = 6 /\
     parseHex digits = blockId).
Proof.
  intros Hsmall Hlarge. split.
  - intros blockId Hwithin. exists (blockIdDigits blockId).
    split; [reflexivity|]. split; [|split; [apply blockIdDigits_reads_back|reflexivity]].
    assert (Hblock : (blockId < 16 ^ N.of_nat 5)%N).
    { change (16 ^ N.of_nat 5)%N with 1048576%N.
      change chunkSize with 4194304%N in Hwithin.
      change (2 ^ 42)%N with 4398046511104%N in Hsmall. lia. }
    unfold blockIdDigits, padStart. rewrite fill_length.
    pose proof (@hexDigits_at_most (S (N.to_nat (N.log2 blockId))) 5 blockId EmptyString
                  ltac:(lia) Hblock) as Hupper.
    fold (toString16 blockId) in Hupper. cbn [String.length] in Hupper. lia.
  - exists 1048576%N, (blockIdDigits 1048576).
    split; [|split; [reflexivity|split; [reflexivity|apply blockIdDigits_reads_back]]].
    change chunkSize with 4194304%N. change (2 ^ 42)%N with 4398046511104%N in Hlarge. lia.
Qed.

End HandlerProperties.

Section HandlerScenario.
Import AzureFileHandler.

Example toString16_examples :
  toString16 0 = "0"%string /\ toString16 255 = "ff"%string /\
  toString16 4096 = "1000"%string /\ blockIdDigits 26 = "0001a"%string /\
  blockIdDigits 1048576 = "100000"%string.
Proof. repeat split. Qed.

Example uploadFile_empty_file :
  uploadFile (platform := desktop) 0 "https://blob/container?sig=1" "empty.bim" =
  {| settled := Some (Resolved tt);
     requests := [commitRequest "https://blob/container?sig=1"
                    (blockListOf (platform := desktop) [])] |}.
Proof. reflexivity. Qed.

Lemma desktop_reliable : reliable (platform := desktop).
Proof. intros url options. reflexivity. Qed.

Lemma uploadFile_uploads_the_whole_file_witness :
  let file := [Byte.x01; Byte.x02; Byte.x03] in
  let numbers := blockNumbers 0 (N.to_nat (blockCount (N.of_nat (length file)))) in
  let blocks := map (blockRequest (platform := desktop) "https://blob?sig=1" file) numbers in
  uploadFile (platform := desktop) 1 "https://blob?sig=1" "model.bim" =
  {| settled := Some (Resolved tt);
     requests := blocks ++ [commitRequest "https://blob?sig=1"
                              (blockListOf (platform := desktop) numbers)] |} /\
  List.concat (map bufferOf blocks) = file.
Proof.
  apply (@uploadFile_uploads_the_whole_file desktop 1 "https://blob?sig=1" "model.bim"
           [Byte.x01; Byte.x02; Byte.x03] desktop_reliable eq_refl eq_refl).
  vm_compute. lia.
Defined.

Lemma uploadFile_stops_at_the_first_failure_witness :
  uploadFile (platform := offline) 1 "https://blob?sig=1" "model.bim" =
  {| settled := Some (RejectedWith (RequestError "offline"));
     requests := map (blockRequest (platform := offline) "https://blob?sig=1"
                        [Byte.x01; Byte.x02; Byte.x03])
                     (blockNumbers 0 1) |}.
Proof.
  apply (@uploadFile_stops_at_the_first_failure offline 1 "https://blob?sig=1" "model.bim"
           [Byte.x01; Byte.x02; Byte.x03] 0 (RequestError "offline") eq_refl eq_refl).
  - vm_compute. reflexivity.
  - intros j Hj. lia.
  - reflexivity.
  - lia.
Defined.

Lemma uploadFile_rejects_without_a_request_witness :
  requests (uploadFile (platform := desktop) 1 "https://blob?sig=1" "missing.bim") = [] /\
  settled (uploadFile (platform := desktop) 1 "https://blob?sig=1" "missing.bim") =
  Some (RejectedWith
          (FileNotFound "Could not find file at specified location: missing.bim")).
Proof.
  apply (@uploadFile_rejects_without_a_request desktop 1 "https://blob?sig=1" "missing.bim").
  right. reflexivity.
Defined.


Lemma getBlockId_injective_witness :
  getBlockId (platform := desktop) 26 = "0001a"%string /\ (26 = 26)%N.
Proof.
  split; [reflexivity|].
  apply (@getBlockId_injective desktop 26 26).
  - intros a b H. exact H.
  - reflexivity.
Defined.

Lemma block_ids_have_five_digits_witness :
  (forall blockId,
     (blockId * chunkSize < 3)%N ->
     exists digits,
       getBlockId (platform := desktop) blockId = digits /\
       String.length digits = 5 /\
       parseHex digits = blockId /\
       forall uploadUrlString file,
         map fst (requests (uploadChunk (platform := desktop) uploadUrlString file blockId)) =
         [(uploadUrlString ++ "&comp=block&blockid=" ++ digits)%string]) /\
  (exists blockId digits,
     (blockId * chunkSize < 2 ^ 42 + 1)%N /\
     getBlockId (platform := desktop) blockId = digits /\
     String.length digits = 6 /\
     parseHex digits = blockId).
Proof.
  apply (@block_ids_have_five_digits desktop 3 (2 ^ 42 + 1)).
  - vm_compute. discriminate.
  - vm_compute. reflexivity.
Defined.

End HandlerScenario.

Section LoopScenario.
#[local] Existing Instance identityMarshaling.
#[local] Existing Instance loopbackProtocol.
#[local] Existing Instance numberedListeners.

Lemma send_returns_and_keeps_instance_witness :
  completion (send ping threeListeners) = Some (Returns tt) /\
  after (send ping threeListeners) = threeListeners /\
  forall listener delivered,
    ~ In (Call listener delivered) (events (send ping threeListeners)).
Proof.
  apply (@send_returns_and_keeps_instance identityMarshaling
           (loopbackProtocol identityMarshaling) numberedListeners ping threeListeners).
Defined.

Lemma broadcast_walks_the_growing_list_witness :
  let this := @Build_MobileIpcTransport numberedListeners [1; 7] IpcInterface in
  let o := broadcast 2 (asValue ping) this in
  exists calls pending,
    events o = map (fun call => Call (fst call) (snd call)) calls /\
    chained (asValue ping) calls /\
    _listeners (after o) = map fst calls ++ pending /\
    _listeners (after o) =
      _listeners this ++ flat_map (fun call => reenters (fst call) (snd call)) calls /\
    ((completion o = Some (Returns tt) /\ pending = [] /\ Forall returned calls) \/
     (exists e before last,
        completion o = Some (Throws e) /\ calls = before ++ [last] /\
        Forall returned before /\ threw e last) \/
     (completion o = None /\ length calls = 2 /\ pending <> [] /\
      Forall returned calls)).
Proof.
  intros this.
  apply (@broadcast_walks_the_growing_list identityMarshaling
           (loopbackProtocol identityMarshaling) numberedListeners 2 (asValue ping) this).
Defined.

End LoopScenario.
